(** * atomix/raft-storage: the replication core, embedded in Rocq

    A shallow embedding of the parts of the Go sources that the
    specification's claims talk about:

    - [snapshot.go]: the in-memory snapshot store and its snapshots,
      with the Go slices and the [bytes.Buffer] / [bytes.Reader] they are
      wrapped in;
    - [appender.go]: the leader's [raftAppender] (commit index, heartbeat
      futures) and the per-peer [memberAppender] (append responses and the
      construction of batched append requests);
    - [roles/follower.go]: the follower's start-up and its heartbeat timer.

    Go's [int64] and [int] are integers of [Z] wrapped to 64 bits, maps are
    [gmap]s, [container/list] lists are [list]s, goroutines started with
    [go] and channel sends are recorded as effects in the order in which the
    code issues them.  Every function runs from the state it is given; of
    the locks, the appender's mutex is a flag of the appender, and the
    server's lock shows where a function drops it and takes it again, as
    what other goroutines did to the server in between. *)

From Stdlib Require Import ZArith Lia.
From Stdlib Require Import Strings.Byte.
From stdpp Require Import gmap strings list sorting.

Local Open Scope Z_scope.

(** ** Machine integers *)

Module Int64.

Definition min_int : Z := - 2 ^ 63.
Definition max_int : Z := 2 ^ 63 - 1.

(** Two's complement wrap-around of a 64-bit signed integer. *)
Definition wrap (z : Z) : Z := (z + 2 ^ 63) mod 2 ^ 64 - 2 ^ 63.

Definition add (x y : Z) : Z := wrap (x + y).
Definition sub (x y : Z) : Z := wrap (x - y).

Definition in_range (z : Z) : Prop := min_int <= z <= max_int.

End Int64.

(** ** snapshot.go *)

Module Snapshot.

(** *** Go slices over a heap of backing arrays

    A backing array has a fixed capacity and is zero-initialised by
    [make]; its cells are kept sparsely.  Every slice of this file starts
    at the first cell of its array, so a slice header is the array, a
    length and a capacity. *)

Record slice := mkSlice { s_ptr : nat; s_len : N; s_cap : N }.

Record memory := mkMemory {
  arrays : gmap nat (gmap N byte);
  next_ptr : nat
}.

Definition empty_memory : memory := mkMemory ∅ 0.

(** [make([]byte, len, cap)] *)
Definition make (m : memory) (len cap : N) : memory * slice :=
  (mkMemory (<[next_ptr m := ∅]> (arrays m)) (S (next_ptr m)),
   mkSlice (next_ptr m) len cap).

Definition load (m : memory) (p : nat) (i : N) : byte :=
  default x00 (arrays m !! p ≫= (.!! i)).

Definition store (m : memory) (p : nat) (i : N) (b : byte) : memory :=
  mkMemory (<[p := <[i := b]> (default ∅ (arrays m !! p))]> (arrays m))
           (next_ptr m).

(** The bytes a slice denotes: cells [0 .. len) of its array. *)
Definition contents (m : memory) (s : slice) : list byte :=
  (fun i => load m (s_ptr s) (N.of_nat i)) <$> seq 0 (N.to_nat (s_len s)).

(** [copy(dst[at:], src)] where [src] fits. *)
Fixpoint copy_at (m : memory) (p : nat) (at_ : N) (src : list byte) : memory :=
  match src with
  | [] => m
  | b :: src' => copy_at (store m p at_ b) p (N.succ at_) src'
  end.

(** *** bytes.Buffer, as far as a writer uses it (nothing is ever read
    from the buffer, so its read offset stays 0) *)

Record Buffer := mkBuffer { buf : slice }.

(** [bytes.NewBuffer(buf)]: the buffer takes the slice header as its
    initial contents; the header is copied, the array is shared. *)
Definition NewBuffer (s : slice) : Buffer := mkBuffer s.

(** [Buffer.Write]: reslice when the data fits in the capacity, else
    move to a fresh, larger array (of capacity [2*cap + n] in the Go
    releases of the code's time); then copy. *)
Definition Buffer_Write (m : memory) (b : Buffer) (p : list byte)
  : memory * Buffer * N :=
  let l := s_len (buf b) in
  let n := N.of_nat (length p) in
  if (n <=? s_cap (buf b) - l)%N then
    let b' := mkBuffer (mkSlice (s_ptr (buf b)) (l + n) (s_cap (buf b))) in
    (copy_at m (s_ptr (buf b)) l p, b', n)
  else
    let '(m1, fresh) := make m (l + n) (2 * s_cap (buf b) + n) in
    let m2 := copy_at m1 (s_ptr fresh) 0 (contents m (buf b)) in
    (copy_at m2 (s_ptr fresh) l p, mkBuffer fresh, n).

(** *** bytes.Reader *)

Record Reader := mkReader { r_s : slice; r_i : N }.

Definition NewReader (s : slice) : Reader := mkReader s 0.

Inductive io_error := EOF.

(** [Reader.Read(p)] with [len(p) = n]: the bytes read, the error and the
    advanced reader. *)
Definition Reader_Read (m : memory) (r : Reader) (n : N)
  : list byte * option io_error * Reader :=
  if (s_len (r_s r) <=? r_i r)%N then ([], Some EOF, r)
  else
    let got := take (N.to_nat n) (drop (N.to_nat (r_i r)) (contents m (r_s r))) in
    (got, None, mkReader (r_s r) (r_i r + N.of_nat (length got))).

(** *** memorySnapshot *)

Record memorySnapshot := mkSnapshot {
  index : Z;
  timestamp : Z;
  bytes : slice
}.

Definition Index (s : memorySnapshot) : Z := index s.
Definition Timestamp (s : memorySnapshot) : Z := timestamp s.

Record memoryReader := mkMemoryReader { reader : Reader }.
Record memoryWriter := mkMemoryWriter { writer : Buffer }.

Definition Snapshot_Reader (s : memorySnapshot) : memoryReader :=
  mkMemoryReader (NewReader (bytes s)).

Definition Snapshot_Writer (s : memorySnapshot) : memoryWriter :=
  mkMemoryWriter (NewBuffer (bytes s)).

Definition memoryReader_Read (m : memory) (r : memoryReader) (n : N)
  : list byte * option io_error * memoryReader :=
  let '(got, err, rd) := Reader_Read m (reader r) n in
  (got, err, mkMemoryReader rd).

Definition memoryWriter_Write (m : memory) (w : memoryWriter) (p : list byte)
  : memory * memoryWriter * N :=
  let '(m', b, n) := Buffer_Write m (writer w) p in
  (m', mkMemoryWriter b, n).

(** [Close] of a reader or a writer returns [nil] and changes nothing. *)
Definition memoryWriter_Close (w : memoryWriter) : option io_error := None.
Definition memoryReader_Close (r : memoryReader) : option io_error := None.

(** Writing a sequence of chunks through one writer. *)
Fixpoint write_chunks (m : memory) (w : memoryWriter) (chunks : list (list byte))
  : memory * memoryWriter :=
  match chunks with
  | [] => (m, w)
  | p :: rest =>
      let '(m', w', _) := memoryWriter_Write m w p in
      write_chunks m' w' rest
  end.

(** Draining a reader the way [sendInstallRequests] does: read into a
    buffer of [n] bytes while bytes arrive without an error.  A read that
    goes on takes at least one byte, so the length of the reader's slice
    bounds the number of rounds. *)
Fixpoint read_rounds (rounds : nat) (m : memory) (r : memoryReader) (n : N)
  : list byte :=
  match rounds with
  | O => []
  | S k =>
      let '(got, err, r') := memoryReader_Read m r n in
      match got, err with
      | _ :: _, None => got ++ read_rounds k m r' n
      | _, _ => []
      end
  end.

Definition read_all (m : memory) (r : memoryReader) (n : N) : list byte :=
  read_rounds (S (N.to_nat (s_len (r_s (reader r))))) m r n.

(** *** memorySnapshotStore *)

Record memorySnapshotStore := mkStore {
  snapshots : gmap Z memorySnapshot;
  currentSnapshot : option memorySnapshot
}.

Definition newMemorySnapshotStore : memorySnapshotStore := mkStore ∅ None.

Definition newSnapshot (m : memory) (st : memorySnapshotStore) (idx ts : Z)
  : memory * memorySnapshotStore * memorySnapshot :=
  let '(m', bs) := make m 0 (1024 * 1024) in
  let snapshot := mkSnapshot idx ts bs in
  (m', mkStore (<[idx := snapshot]> (snapshots st)) (Some snapshot), snapshot).

Definition CurrentSnapshot (st : memorySnapshotStore) : option memorySnapshot :=
  currentSnapshot st.

(** A run of [newSnapshot(index, timestamp)] calls on a fresh store. *)
Definition run_from (m : memory) (st : memorySnapshotStore) (calls : list (Z * Z))
  : memory * memorySnapshotStore :=
  foldl (fun '(m, st) '(idx, ts) => (newSnapshot m st idx ts).1) (m, st) calls.

Definition run (calls : list (Z * Z)) : memory * memorySnapshotStore :=
  run_from empty_memory newMemorySnapshotStore calls.

End Snapshot.

(** ** The server, as appender.go uses it *)

Module Server.

(** The fields of [RaftServer] that the appenders read and write under the
    server's lock. *)
Record RaftServer := mkServer {
  term : Z;
  leader : string;
  commitIndex : Z;
  electionTimeout : Z
}.

(** Modelled from the spec: [RaftServer.setCommitIndex], declared in the
    server's source file, which is not among the sources; the spec has the
    appender set the commit index through it. *)
Definition setCommitIndex (s : RaftServer) (i : Z) : RaftServer :=
  mkServer (term s) (leader s) i (electionTimeout s).

(** Modelled from the spec: [RaftServer.setTerm], not among the sources:
    the member sets [currentTerm := T]. *)
Definition setTerm (s : RaftServer) (t : Z) : RaftServer :=
  mkServer t (leader s) (commitIndex s) (electionTimeout s).

(** No leader is the empty member id. *)
Definition no_leader : string := EmptyString.

(** Modelled from the spec: [RaftServer.setLeader], not among the sources. *)
Definition setLeader (s : RaftServer) (l : string) : RaftServer :=
  mkServer (term s) l (commitIndex s) (electionTimeout s).

End Server.

(** ** Log entries *)

Module Log.

(** Modelled from the spec: the [LogEntry] message (the log's proto file is
    not among the sources): a term, a timestamp and one of three payloads. *)
Inductive payload :=
| Command (value : list byte)
| Configuration (members : list string)
| Initialize.

Record RaftLogEntry := mkEntry {
  Term : Z;
  Timestamp : Z;
  Payload : payload
}.

Record IndexedEntry := mkIndexed {
  Index : Z;
  Entry : RaftLogEntry
}.

(** The size of the serialized message, [XXX_Size()], which the generated
    proto code computes. *)
Class Sized := XXX_Size : RaftLogEntry → Z.

(** Modelled from the spec: the [RaftLogReader] of the log (the log's
    source file is not among the sources).  A reader is a cursor over the
    log's entries: [Reset(index)] moves the cursor, [NextEntry()] returns
    the entry at the cursor and advances, or none when the log has no entry
    there; [LastIndex()] is the index of the log's last entry, 0 for an
    empty log (the first index is 1). *)
Record RaftLogReader := mkLogReader {
  entries : list IndexedEntry;
  cursor : Z
}.

Definition LastIndex (r : RaftLogReader) : Z :=
  from_option Index 0 (last (entries r)).

Definition Reset (r : RaftLogReader) (index : Z) : RaftLogReader :=
  mkLogReader (entries r) index.

Definition NextEntry (r : RaftLogReader) : option IndexedEntry * RaftLogReader :=
  match List.find (fun e => Index e =? cursor r) (entries r) with
  | Some e => (Some e, mkLogReader (entries r) (Int64.add (cursor r) 1))
  | None => (None, r)
  end.

End Log.

(** ** Effects

    What the appenders do to the world besides updating their own fields:
    calls into the server, channel operations and goroutines, in program
    order.  A channel is named by the number [make] gave it. *)

Module Effects.

Abbreviation chan := nat.

Inductive effect :=
| Call_setCommitIndex (i : Z)
| Call_setTerm (t : Z)
| Call_setLeader (l : string)
| Go_becomeFollower
| Call_resetClient (member : string)
| Send_commitChannel (c : chan) (i : Z)          (* ch <- i *)
| Send_heartbeatCh (member : string) (t : Z)     (* member.heartbeatCh <- t *)
| Send_entryCh (member : string) (e : Log.IndexedEntry)
| Send_future (c : chan)                          (* ch <- struct{}{} *)
| Close_future (c : chan)                         (* close(ch) *)
| Send_appendCh (nextIndex : Z)                   (* a.appendCh <- nextIndex *)
| Send_commitCh (member : string) (index time : Z)
| Send_failCh (time : Z)
| Go_append.

(** How a call ends: it returns, it panics, or it blocks for ever, on a
    channel operation that nothing can complete or on a lock that is not
    released. *)
Inductive outcome (A : Type) :=
| Returns (a : A)
| Panics
| BlocksForever (a : A).
Arguments Returns {A} a.
Arguments Panics {A}.
Arguments BlocksForever {A} a.

End Effects.

(** ** Messages *)

Module AppendRequest.
Record t := mk {
  Term : Z;
  Leader : string;
  PrevLogIndex : Z;
  PrevLogTerm : Z;
  Entries : list Log.RaftLogEntry;
  CommitIndex : Z
}.
End AppendRequest.

Inductive ResponseStatus := ResponseStatus_OK | ResponseStatus_ERROR.

Module AppendResponse.
Record t := mk {
  Status : ResponseStatus;
  Term : Z;
  Succeeded : bool;
  LastLogIndex : Z
}.
End AppendResponse.

(** ** appender.go: memberAppender *)

Module MemberAppender.
Import Effects.

Definition minBackoffFailureCount : Z := 5.
Definition maxBatchSize : Z := 1024 * 1024.

Record memberAppender := mkMember {
  member : string;
  active : bool;
  snapshotIndex : Z;
  prevTerm : Z;
  nextIndex : Z;
  matchIndex : Z;
  appending : bool;
  failureCount : Z;
  firstFailureTime : Z;
  reader : Log.RaftLogReader;
  queue : list Log.IndexedEntry
}.

(** The zero [time.Time], which a [time.Time] field holds until it is
    assigned: times are kept as their [UnixNano()], and that of the zero
    [Time] (January 1 of year 1) wraps to this number. *)
Definition unset_time : Z := -6795364578871345152.

Definition newMemberAppender (memberId : string) (log : list Log.IndexedEntry)
  : memberAppender :=
  let reader := Log.mkLogReader log 0 in
  mkMember memberId false 0 0 (Int64.add (Log.LastIndex reader) 1) 0 false 0
           unset_time reader [].

Definition set_active (a : memberAppender) (b : bool) : memberAppender :=
  mkMember (member a) b (snapshotIndex a) (prevTerm a) (nextIndex a)
           (matchIndex a) (appending a) (failureCount a) (firstFailureTime a)
           (reader a) (queue a).

Definition set_prevTerm (a : memberAppender) (t : Z) : memberAppender :=
  mkMember (member a) (active a) (snapshotIndex a) t (nextIndex a)
           (matchIndex a) (appending a) (failureCount a) (firstFailureTime a)
           (reader a) (queue a).

Definition set_nextIndex (a : memberAppender) (i : Z) : memberAppender :=
  mkMember (member a) (active a) (snapshotIndex a) (prevTerm a) i
           (matchIndex a) (appending a) (failureCount a) (firstFailureTime a)
           (reader a) (queue a).

Definition set_matchIndex (a : memberAppender) (i : Z) : memberAppender :=
  mkMember (member a) (active a) (snapshotIndex a) (prevTerm a) (nextIndex a)
           i (appending a) (failureCount a) (firstFailureTime a)
           (reader a) (queue a).

Definition set_appending (a : memberAppender) (b : bool) : memberAppender :=
  mkMember (member a) (active a) (snapshotIndex a) (prevTerm a) (nextIndex a)
           (matchIndex a) b (failureCount a) (firstFailureTime a)
           (reader a) (queue a).

Definition set_failureCount (a : memberAppender) (n : Z) : memberAppender :=
  mkMember (member a) (active a) (snapshotIndex a) (prevTerm a) (nextIndex a)
           (matchIndex a) (appending a) n (firstFailureTime a)
           (reader a) (queue a).

Definition set_firstFailureTime (a : memberAppender) (t : Z) : memberAppender :=
  mkMember (member a) (active a) (snapshotIndex a) (prevTerm a) (nextIndex a)
           (matchIndex a) (appending a) (failureCount a) t
           (reader a) (queue a).

Definition set_reader (a : memberAppender) (r : Log.RaftLogReader) : memberAppender :=
  mkMember (member a) (active a) (snapshotIndex a) (prevTerm a) (nextIndex a)
           (matchIndex a) (appending a) (failureCount a) (firstFailureTime a)
           r (queue a).

Definition set_queue (a : memberAppender) (q : list Log.IndexedEntry) : memberAppender :=
  mkMember (member a) (active a) (snapshotIndex a) (prevTerm a) (nextIndex a)
           (matchIndex a) (appending a) (failureCount a) (firstFailureTime a)
           (reader a) q.

Definition start (a : memberAppender) : memberAppender := set_active a true.

(** *** The event loop: one round of [processEvents] *)

Inductive event :=
| entryCh (entry : Log.IndexedEntry)
| appendCh (nextIndex : Z)
| heartbeatCh (t : Z)
| tickCh
| stopped.

Inductive spawned :=
| go_append
| go_sendEmptyAppendRequest.

(** The appender after the event, the goroutines started, and whether the
    loop goes on. *)
Definition processEvent (a : memberAppender) (ev : event)
  : memberAppender * list spawned * bool :=
  match ev with
  | entryCh entry =>
      let a1 := if failureCount a =? 0 then set_queue a (queue a ++ [entry]) else a in
      if negb (appending a1) then (set_appending a1 true, [go_append], true)
      else (a1, [], true)
  | appendCh nextIndex =>
      let a1 := set_appending a false in
      if nextIndex <=? Log.LastIndex (reader a1)
      then (set_appending a1 true, [go_append], true)
      else (a1, [], true)
  | heartbeatCh _ => (a, [go_sendEmptyAppendRequest], true)
  | tickCh =>
      if negb (appending a) then (set_appending a true, [go_append], true)
      else (a, [], true)
  | stopped => (a, [], false)
  end.

Definition succeed (a : memberAppender) : memberAppender := set_failureCount a 0.

Definition fail (a : memberAppender) (time : Z) : memberAppender * list effect :=
  let a1 := if failureCount a =? 0 then set_firstFailureTime a time else a in
  (set_failureCount a1 (Int64.add (failureCount a1) 1), [Send_failCh time]).

Definition requeue (a : memberAppender) : list effect :=
  [Send_appendCh (nextIndex a)].

Definition commit (a : memberAppender) (time : Z) : list effect :=
  [Send_commitCh (member a) (matchIndex a) time].

(** *** Requests *)

Definition emptyAppendRequest (a : memberAppender) (s : Server.RaftServer)
  : AppendRequest.t :=
  AppendRequest.mk (Server.term s) (Server.leader s)
    (Int64.sub (nextIndex a) 1) (prevTerm a) [] (Server.commitIndex s).

Section entriesAppendRequest.
Context `{Log.Sized}.

(** The loop of [entriesAppendRequest].  Its state is the list of entries
    gathered so far, their accumulated size, the local [nextIndex], the
    replication queue and the log reader.  Every round either takes the
    entry at the front of the queue, drops it, or reads from the log. *)
Fixpoint entriesLoop (fuel : nat) (entriesList : list Log.RaftLogEntry)
    (size nextIndex : Z) (queue : list Log.IndexedEntry)
    (reader : Log.RaftLogReader)
  : option (list Log.RaftLogEntry * list Log.IndexedEntry * Log.RaftLogReader) :=
  if nextIndex <=? Log.LastIndex reader then
    match fuel with
    | O => None
    | S fuel' =>
        let fromLog :=
          let reader1 := Log.Reset reader nextIndex in
          let '(indexed, reader2) := Log.NextEntry reader1 in
          match indexed with
          | Some indexed =>
              let entriesList' := entriesList ++ [Log.Entry indexed] in
              let size' := Int64.add size (Log.XXX_Size (Log.Entry indexed)) in
              let nextIndex' := Int64.add nextIndex 1 in
              if maxBatchSize <=? size' then Some (entriesList', queue, reader2)
              else entriesLoop fuel' entriesList' size' nextIndex' queue reader2
          | None => Some (entriesList, queue, reader2)
          end in
        match queue with
        | indexed :: queue' =>
            if Log.Index indexed =? nextIndex then
              let entriesList' := entriesList ++ [Log.Entry indexed] in
              let size' := Int64.add size (Log.XXX_Size (Log.Entry indexed)) in
              let nextIndex' := Int64.add nextIndex 1 in
              if maxBatchSize <=? size' then Some (entriesList', queue', reader)
              else entriesLoop fuel' entriesList' size' nextIndex' queue' reader
            else if Log.Index indexed <? nextIndex then
              entriesLoop fuel' entriesList size nextIndex queue' reader
            else fromLog
        | [] => fromLog
        end
    end
  else Some (entriesList, queue, reader).

Definition entriesAppendRequest (fuel : nat) (a : memberAppender)
    (s : Server.RaftServer) : option (AppendRequest.t * memberAppender) :=
  match entriesLoop fuel [] 0 (nextIndex a) (queue a) (reader a) with
  | Some (entries, queue', reader') =>
      Some (AppendRequest.mk (Server.term s) (Server.leader s)
              (Int64.sub (nextIndex a) 1) (prevTerm a) entries
              (Server.commitIndex s),
            set_reader (set_queue a queue') reader')
  | None => None
  end.

End entriesAppendRequest.

(** *** Responses *)

(** [handleAppendResponse].  Between dropping the read lock and taking the
    write lock other goroutines may change the server: [interference] is
    what they did. *)
Definition handleAppendResponse
    (interference : Server.RaftServer → Server.RaftServer)
    (a : memberAppender) (s : Server.RaftServer)
    (request : AppendRequest.t) (response : AppendResponse.t) (startTime : Z)
  : outcome (memberAppender * Server.RaftServer * list effect) :=
  let a := succeed a in
  if AppendResponse.Succeeded response then
    let a := set_matchIndex a (AppendResponse.LastLogIndex response) in
    let a := set_nextIndex a (Int64.add (matchIndex a) 1) in
    let updated :=
      if (0 <? length (AppendRequest.Entries request))%nat then
        let i := Int64.sub (Int64.sub (AppendResponse.LastLogIndex response)
                                      (AppendRequest.PrevLogIndex request)) 1 in
        if i <? 0 then None
        else match AppendRequest.Entries request !! Z.to_nat i with
             | Some e => Some (set_prevTerm a (Log.Term e))
             | None => None
             end
      else Some a in
    match updated with
    | None => Panics
    | Some a => Returns (a, s, commit a startTime ++ [Send_appendCh (nextIndex a)])
    end
  else
    if Server.term s <? AppendResponse.Term response then
      let s := interference s in
      if Server.term s <? AppendResponse.Term response then
        Returns (a,
                 Server.setLeader (Server.setTerm s (AppendResponse.Term response))
                                  Server.no_leader,
                 [Call_setTerm (AppendResponse.Term response);
                  Call_setLeader Server.no_leader; Go_becomeFollower])
      else Returns (a, s, [])
    else
      let a :=
        if AppendResponse.LastLogIndex response <? matchIndex a then
          let a := set_matchIndex a (AppendResponse.LastLogIndex response) in
          set_nextIndex a (Int64.add (matchIndex a) 1)
        else a in
      Returns (a, s, requeue a).

Definition handleAppendFailure (a : memberAppender) (startTime : Z)
  : memberAppender * list effect :=
  let '(a, es) := fail a startTime in
  (a, es ++ requeue a).

Definition handleAppendError (a : memberAppender) (startTime : Z)
  : memberAppender * list effect :=
  let '(a, es) := fail a startTime in
  (a, Call_resetClient (member a) :: es ++ requeue a).

End MemberAppender.

(** ** appender.go: raftAppender *)

Module Appender.
Import Effects.

(** [time.Time] values are kept as their [UnixNano()].  The zero [Time]
    (January 1 of year 1) is outside the range of [UnixNano], which wraps
    to this number. *)
Definition zero_time : Z := -6795364578871345152.

Record heartbeatFuture := mkFuture {
  ch : option chan;        (* [None] is the nil channel *)
  time : Z
}.

(** The composite literal [heartbeatFuture{}]: every field has its zero
    value. *)
Definition empty_future : heartbeatFuture := mkFuture None zero_time.

Record raftAppender := mkAppender {
  server : Server.RaftServer;
  members : gmap string MemberAppender.memberAppender;
  commitIndexes : gmap string Z;
  commitTimes : gmap string Z;
  heartbeatFutures : list heartbeatFuture;
  commitChannels : gmap Z chan;
  lastQuorumTime : Z;
  mu : bool;                 (* the mutex is held by the goroutine of [start] *)
  next_chan : chan           (* the next channel [make] returns *)
}.

(** One member appender for every member of the cluster but the server
    itself. *)
Definition newAppender (s : Server.RaftServer) (cluster_members : list string)
    (self : string) (log : list Log.IndexedEntry) (now : Z) : raftAppender :=
  let members :=
    foldl (fun ms id =>
             if decide (id = self) then ms
             else <[id := MemberAppender.newMemberAppender id log]> ms)
          ∅ cluster_members in
  mkAppender s members ∅ ∅ [] ∅ now false 0.

Definition set_server (a : raftAppender) (s : Server.RaftServer) : raftAppender :=
  mkAppender s (members a) (commitIndexes a) (commitTimes a)
             (heartbeatFutures a) (commitChannels a) (lastQuorumTime a)
             (mu a) (next_chan a).

(** A call that ends by receiving from a channel: it has returned (with
    [nil] or an error), it waits on the channel, or it never got past
    [a.mu.Lock()]. *)
Inductive call :=
| Returned (err : option string)
| Receiving (c : chan)
| Locking.

(** What the receive [_, ok := <-ch] makes of the call: a value gives
    [nil], a closed channel the error. *)
Definition received (ok : bool) (failure : string) : option string :=
  if ok then None else Some failure.

(** [heartbeat()] up to its receive. *)
Definition heartbeat (a : raftAppender) : raftAppender * list effect * call :=
  if (size (members a) =? 0)%nat then (a, [], Returned None)
  else if mu a then (a, [], Locking)
  else
    let ch := next_chan a in
    let future := empty_future in
    let a' := mkAppender (server a) (members a) (commitIndexes a)
                (commitTimes a) (heartbeatFutures a ++ [future])
                (commitChannels a) (lastQuorumTime a) (mu a) (S (next_chan a)) in
    (a',
     (fun m => Send_heartbeatCh m.1 (time future)) <$> map_to_list (members a),
     Receiving ch).

(** [append(entry)] up to its receive. *)
Definition append (a : raftAppender) (entry : Log.IndexedEntry)
  : raftAppender * list effect * call :=
  if (size (members a) =? 0)%nat then
    (set_server a (Server.setCommitIndex (server a) (Log.Index entry)),
     [Call_setCommitIndex (Log.Index entry)], Returned None)
  else
    let ch := next_chan a in
    let a' := mkAppender (server a) (members a) (commitIndexes a)
                (commitTimes a) (heartbeatFutures a)
                (<[Log.Index entry := ch]> (commitChannels a))
                (lastQuorumTime a) (mu a) (S (next_chan a)) in
    (a',
     (fun m => Send_entryCh m.1 entry) <$> map_to_list (members a),
     Receiving ch).

(** [indexes := make([]int64, n)] filled from the values of a map in
    iteration order and then sorted: the fill panics when the map has more
    than [n] values, the cells it does not reach stay 0. *)
Definition sorted_values (n : nat) (m : gmap string Z) : option (list Z) :=
  let values := (map_to_list m).*2 in
  if (n <? length values)%nat then None
  else Some (merge_sort Z.le (values ++ replicate (n - length values) 0)).

(** The loop of [commitIndex]: [for i := ...; i <= commitIndex; i++]. *)
Fixpoint commitLoop (fuel : nat) (i commitIndex : Z) (s : Server.RaftServer)
    (channels : gmap Z chan) : option (Server.RaftServer * list effect) :=
  if i <=? commitIndex then
    match fuel with
    | O => None
    | S fuel' =>
        let s' := Server.setCommitIndex s i in
        let notify := match channels !! i with
                      | Some ch => [Send_commitChannel ch i]
                      | None => []
                      end in
        match commitLoop fuel' (Int64.add i 1) commitIndex s' channels with
        | Some (s'', es) => Some (s'', Call_setCommitIndex i :: notify ++ es)
        | None => None
        end
    end
  else Some (s, []).

Definition commitIndex (fuel : nat) (a : raftAppender) (member : string) (index : Z)
  : option (outcome (raftAppender * list effect)) :=
  let prevIndex := default 0 (commitIndexes a !! member) in
  if prevIndex <? index then
    let a1 := mkAppender (server a) (members a)
                (<[member := index]> (commitIndexes a)) (commitTimes a)
                (heartbeatFutures a) (commitChannels a) (lastQuorumTime a)
                (mu a) (next_chan a) in
    match sorted_values (size (members a1)) (commitIndexes a1) with
    | None => Some Panics
    | Some indexes =>
        match indexes !! (size (members a1) / 2)%nat with
        | None => Some Panics
        | Some commitIndex =>
            match commitLoop fuel (Int64.add (Server.commitIndex (server a1)) 1)
                    commitIndex (server a1) (commitChannels a1) with
            | Some (s, es) => Some (Returns (set_server a1 s, es))
            | None => None
            end
        end
    end
  else Some (Returns (a, [])).

(** The loop of [commitTime] over the pending futures, first in first
    out, once the mutex is taken.  A send on a nil channel never
    completes. *)
Fixpoint resolveFutures (futures : list heartbeatFuture) (commitTime : Z)
  : outcome (list heartbeatFuture * list effect) :=
  match futures with
  | [] => Returns ([], [])
  | commitFuture :: rest =>
      if time commitFuture <? commitTime then
        match ch commitFuture with
        | None => BlocksForever (futures, [])
        | Some c =>
            match resolveFutures rest commitTime with
            | Returns (fs, es) => Returns (fs, Send_future c :: Close_future c :: es)
            | BlocksForever (fs, es) =>
                BlocksForever (fs, Send_future c :: Close_future c :: es)
            | Panics => Panics
            end
        end
      else Returns (futures, [])
  end.

Definition set_futures (a : raftAppender) (fs : list heartbeatFuture) : raftAppender :=
  mkAppender (server a) (members a) (commitIndexes a) (commitTimes a)
             fs (commitChannels a) (lastQuorumTime a) (mu a) (next_chan a).

Definition set_lastQuorumTime (a : raftAppender) (t : Z) : raftAppender :=
  mkAppender (server a) (members a) (commitIndexes a) (commitTimes a)
             (heartbeatFutures a) (commitChannels a) t (mu a) (next_chan a).

Definition commitTime (a : raftAppender) (member : string) (t : Z)
  : outcome (raftAppender * list effect) :=
  let prevTime := default zero_time (commitTimes a !! member) in
  let nextTime := t in
  if prevTime <? nextTime then
    let a1 := mkAppender (server a) (members a) (commitIndexes a)
                (<[member := nextTime]> (commitTimes a))
                (heartbeatFutures a) (commitChannels a) (lastQuorumTime a)
                (mu a) (next_chan a) in
    match sorted_values (size (members a1)) (commitTimes a1) with
    | None => Panics
    | Some times =>
        match times !! (size (members a1) / 2)%nat with
        | None => Panics
        | Some commitTime =>
            if mu a1 then BlocksForever (a1, [])
            else
            match resolveFutures (heartbeatFutures a1) commitTime with
            | Returns (fs, es) =>
                Returns (set_lastQuorumTime (set_futures a1 fs) t, es)
            | BlocksForever (fs, es) => BlocksForever (set_futures a1 fs, es)
            | Panics => Panics
            end
        end
    end
  else Returns (a, []).

(** [commit]: a commit event of a member appender reaches the appender. *)
Definition commit (fuel : nat) (a : raftAppender)
    (member : MemberAppender.memberAppender) (index t : Z)
  : option (outcome (raftAppender * list effect)) :=
  if negb (MemberAppender.active member) then Some (Returns (a, []))
  else
    match commitIndex fuel a (MemberAppender.member member) index with
    | Some (Returns (a1, es1)) =>
        Some match commitTime a1 (MemberAppender.member member) t with
             | Returns (a2, es2) => Returns (a2, es1 ++ es2)
             | BlocksForever (a2, es2) => BlocksForever (a2, es1 ++ es2)
             | Panics => Panics
             end
    | other => other
    end.

(** [start]: the appender takes its mutex, starts every member appender
    and serves the commit events of [processCommits], one [commit] each.
    The mutex is released when [processCommits] returns, which takes a
    [stop()], and [stop()] begins by taking the mutex: once started, the
    appender holds its mutex for good. *)
Definition start (a : raftAppender) : raftAppender :=
  mkAppender (server a) (MemberAppender.start <$> members a) (commitIndexes a)
             (commitTimes a) (heartbeatFutures a) (commitChannels a)
             (lastQuorumTime a) true (next_chan a).

End Appender.

(** ** roles/follower.go *)

Module VoteRequest.
Record t := mk {
  Term : Z;
  Candidate : string;
  LastLogIndex : Z;
  LastLogTerm : Z
}.
End VoteRequest.

Module VoteResponse.
Record t := mk {
  Status : ResponseStatus;
  Term : Z;
  Voted : bool
}.
End VoteResponse.

Module Follower.

Abbreviation chan := nat.

(** [time.Timer]: [Stop()] returns true when the call stops the timer and
    false when the timer has already expired or been stopped. *)
Inductive timer_state := Running | Expired | Stopped.

Record timer := mkTimer {
  timeout : Z;
  state : timer_state
}.

Definition Timer_Stop (t : timer) : timer * bool :=
  match state t with
  | Running => (mkTimer (timeout t) Stopped, true)
  | _ => (t, false)
  end.

(** What the follower reads of the role it embeds ([*ActiveRole] and,
    through it, the [raft.Raft] it serves): the members of the cluster, the
    election timeout of the configuration, the role's [active] flag. *)
Record ActiveRole := mkActiveRole {
  Members : list string;
  ElectionTimeout : Z;
  active : bool
}.

(** A follower.  Timers live on the heap: [timers] holds every timer that
    [resetHeartbeatTimeout] has allocated so far and a timer pointer is a
    position in it.  (The timer that [sendPollRequests] makes for itself
    is never assigned to a field of the follower and is not kept here.) *)
Record FollowerRole := mkFollower {
  role : ActiveRole;
  heartbeatTimer : option nat;
  heartbeatStop : option chan;
  timers : list timer;
  next_chan : chan
}.

Inductive role_name := RoleFollower | RoleCandidate.

Inductive effect :=
| Go_SetRole (r : role_name)                   (* go r.raft.SetRole(new...Role(...)) *)
| Send_heartbeatStop (c : option chan)         (* r.heartbeatStop <- true *)
| Go_awaitTimer (t : nat) (stop : chan).       (* the goroutine of resetHeartbeatTimeout *)

Definition newFollowerRole (raft : ActiveRole) (heap : list timer) (c : chan)
  : FollowerRole :=
  mkFollower raft None None heap c.

Definition set_role (r : FollowerRole) (a : ActiveRole) : FollowerRole :=
  mkFollower a (heartbeatTimer r) (heartbeatStop r) (timers r) (next_chan r).

(** [resetHeartbeatTimeout].  [rnd] is the number
    [rand.Int63n(int64(electionTimeout))] draws.  The effects are what the
    call does, in program order, up to and including a send on
    [heartbeatStop]; whether that send ever completes depends on the
    channel, which [FollowerSteps.resetHeartbeatTimeout] takes into
    account. *)
Definition resetHeartbeatTimeout (r : FollowerRole) (rnd : Z)
  : FollowerRole * list effect :=
  let arm (heap : list timer) :=
    let timeout := Int64.add (ElectionTimeout (role r)) rnd in
    let t := length heap in
    let stop := next_chan r in
    (mkFollower (role r) (Some t) (Some stop) (heap ++ [mkTimer timeout Running])
                (S stop),
     [Go_awaitTimer t stop]) in
  match heartbeatTimer r with
  | Some t =>
      match timers r !! t with
      | Some tm =>
          let '(tm', stopped) := Timer_Stop tm in
          if negb stopped then (r, [Send_heartbeatStop (heartbeatStop r)])
          else arm (<[t := tm']> (timers r))
      | None => arm (timers r)
      end
  | None => arm (timers r)
  end.

(** [Start].  [started] is the role after [ActiveRole.Start], which the
    follower inherits from a source file that is not among the sources. *)
Definition Start (r : FollowerRole) (started : ActiveRole) (rnd : Z)
  : FollowerRole * list effect :=
  if (length (Members (role r)) =? 1)%nat then (r, [Go_SetRole RoleCandidate])
  else resetHeartbeatTimeout (set_role r started) rnd.

(** [Append], [Install] and [Configure] run the handler inherited from
    [PassiveRole] (not among the sources) and then reset the timeout;
    [handled] is the role after that handler and what it answered. *)
Definition Append (r : FollowerRole) (handled : ActiveRole * AppendResponse.t)
    (rnd : Z) : FollowerRole * AppendResponse.t * list effect :=
  let '(role', response) := handled in
  let '(r', es) := resetHeartbeatTimeout (set_role r role') rnd in
  (r', response, es).

(** The inherited [Install] returns an error or [nil]. *)
Definition Install (r : FollowerRole) (handled : ActiveRole * option string)
    (rnd : Z) : FollowerRole * option string * list effect :=
  let '(role', err) := handled in
  let '(r', es) := resetHeartbeatTimeout (set_role r role') rnd in
  (r', err, es).

(** [Vote].  [updated] is what the inherited
    [updateTermAndLeader(request.Term, ...)] returned, [handled] the role
    after it and the inherited [handleVote], with the response. *)
Definition Vote (r : FollowerRole) (updated : bool)
    (handled : ActiveRole * VoteResponse.t) (rnd : Z)
  : FollowerRole * VoteResponse.t * list effect :=
  let es1 := if updated then [Go_SetRole RoleFollower] else [] in
  let '(role', response) := handled in
  let r1 := set_role r role' in
  if VoteResponse.Voted response then
    let '(r2, es2) := resetHeartbeatTimeout r1 rnd in
    (r2, response, es1 ++ es2)
  else (r1, response, es1).

End Follower.

(** ** metadata.go *)

Module Metadata.

(** The variables that the store's pointers point to: a [*Term] or a
    [*MemberID] is a position among the cells allocated so far. *)
Record heap := mkHeap {
  terms : list Z;
  votes : list string
}.

Record memoryMetadataStore := mkMetadata {
  term : option nat;       (* [None] is nil *)
  vote : option nat
}.

Definition newMemoryMetadataStore : memoryMetadataStore := mkMetadata None None.

(** [StoreTerm(term)] keeps the address of its own parameter: a new
    variable that holds a copy of the argument. *)
Definition StoreTerm (h : heap) (s : memoryMetadataStore) (t : Z)
  : heap * memoryMetadataStore :=
  (mkHeap (terms h ++ [t]) (votes h),
   mkMetadata (Some (length (terms h))) (vote s)).

Definition LoadTerm (s : memoryMetadataStore) : option nat := term s.

(** [StoreVote(vote)] keeps the pointer it is given. *)
Definition StoreVote (s : memoryMetadataStore) (p : option nat)
  : memoryMetadataStore :=
  mkMetadata (term s) p.

Definition LoadVote (s : memoryMetadataStore) : option nat := vote s.

(** What a pointer points to. *)
Definition term_at (h : heap) (p : option nat) : option Z := p ≫= (terms h !!.).
Definition vote_at (h : heap) (p : option nat) : option string := p ≫= (votes h !!.).

(** A caller of the store declares a member id and takes its address, or
    assigns through a pointer it holds. *)
Definition new_vote (h : heap) (v : string) : heap * nat :=
  (mkHeap (terms h) (votes h ++ [v]), length (votes h)).

Definition assign_vote (h : heap) (p : nat) (v : string) : heap :=
  mkHeap (terms h) (<[p := v]> (votes h)).

Definition assign_term (h : heap) (p : nat) (t : Z) : heap :=
  mkHeap (<[p := t]> (terms h)) (votes h).

(** The calls a user of the store makes. *)
Inductive call :=
| Call_StoreTerm (t : Z)
| Call_StoreVote (p : option nat).

Definition step (st : heap * memoryMetadataStore) (c : call)
  : heap * memoryMetadataStore :=
  match c with
  | Call_StoreTerm t => StoreTerm st.1 st.2 t
  | Call_StoreVote p => (st.1, StoreVote st.2 p)
  end.

Definition run (h : heap) (calls : list call) : heap * memoryMetadataStore :=
  foldl step (h, newMemoryMetadataStore) calls.

End Metadata.

(** ** appender.go: the rest of memberAppender *)

Module InstallRequest.
Record t := mk {
  Term : Z;
  Leader : string;
  Index : Z;
  Timestamp : Z;
  Data : list byte
}.
End InstallRequest.

Module Replication.
Import Effects MemberAppender.

(** What a member appender does besides the effects of [Effects]: it sends
    the chunks of a snapshot on the stream of an install call. *)
Inductive effect :=
| Upstream (e : Effects.effect)
| Stream_Send (request : InstallRequest.t).

(** How a call to the peer went: no client could be had for the member,
    the call failed, or the peer replied. *)
Inductive rpc (A : Type) :=
| NoClient
| Failed
| Replied (response : A).
Arguments NoClient {A}.
Arguments Failed {A}.
Arguments Replied {A} response.

(** An install call: no client, no stream, or the chunks go out and
    [CloseAndRecv] fails ([None]) or brings the status of the response. *)
Inductive install_rpc :=
| Install_NoClient
| Install_NoStream
| Install_Closed (reply : option ResponseStatus).

Definition set_snapshotIndex (a : memberAppender) (i : Z) : memberAppender :=
  mkMember (member a) (active a) i (prevTerm a) (nextIndex a)
           (matchIndex a) (appending a) (failureCount a) (firstFailureTime a)
           (reader a) (queue a).

(** [stop], as far as the appender's own fields go. *)
Definition stop (a : memberAppender) : memberAppender := set_active a false.

(** The event loop over the events it receives, in the order in which the
    [select] takes them. *)
Fixpoint processEvents (a : memberAppender) (events : list event)
  : memberAppender * list spawned * bool :=
  match events with
  | [] => (a, [], true)
  | ev :: rest =>
      let '(a1, started, running) := processEvent a ev in
      if running then
        let '(a2, started', running') := processEvents a1 rest in
        (a2, started ++ started', running')
      else (a1, started, false)
  end.

(** [nextAppendRequest].  [currentIndex] is what [a.reader.CurrentIndex()]
    returns. *)
Definition nextAppendRequest `{Log.Sized} (fuel : nat) (a : memberAppender)
    (s : Server.RaftServer) (currentIndex : Z)
  : option (AppendRequest.t * memberAppender) :=
  if (0 <? failureCount a) || (currentIndex =? Log.LastIndex (reader a))
  then Some (emptyAppendRequest a s, a)
  else entriesAppendRequest fuel a s.

(** [sendAppendRequest]: the request goes out and the answer, or its
    absence, is handled.  The effects are what the round does, in program
    order.  Its sends on [commitCh], [failCh] and [appendCh] are on
    unbuffered channels and complete when the loop at the other end takes
    them: [Returns] is the outcome of a round whose sends are taken, and a
    round whose receiver has stopped receiving stays in its first send. *)
Definition sendAppendRequest
    (interference : Server.RaftServer → Server.RaftServer)
    (a : memberAppender) (s : Server.RaftServer) (request : AppendRequest.t)
    (call : rpc AppendResponse.t) (startTime : Z)
  : outcome (memberAppender * Server.RaftServer * list Effects.effect) :=
  match call with
  | NoClient => Returns (a, s, [])
  | Failed =>
      let '(a', es) := handleAppendError a startTime in Returns (a', s, es)
  | Replied response =>
      match AppendResponse.Status response with
      | ResponseStatus_OK =>
          handleAppendResponse interference a s request response startTime
      | ResponseStatus_ERROR =>
          let '(a', es) := handleAppendFailure a startTime in Returns (a', s, es)
      end
  end.

Definition newInstallRequest (s : Server.RaftServer)
    (snapshot : Snapshot.memorySnapshot) (bytes : list byte) : InstallRequest.t :=
  InstallRequest.mk (Server.term s) (Server.leader s)
    (Snapshot.Index snapshot) (Snapshot.Timestamp snapshot) bytes.

Definition handleInstallResponse (a : memberAppender)
    (snapshot : Snapshot.memorySnapshot) (startTime : Z)
  : memberAppender * list Effects.effect :=
  let a := succeed a in
  let a := set_snapshotIndex a (Snapshot.Index snapshot) in
  (a, commit a startTime ++ requeue a).

Definition handleInstallFailure (a : memberAppender)
  : memberAppender * list Effects.effect :=
  (a, []).

Definition handleInstallError (a : memberAppender) (startTime : Z)
  : memberAppender * list Effects.effect :=
  let '(a, es) := fail a startTime in
  (a, Call_resetClient (member a) :: es ++ requeue a).

(** The read loop of [sendInstallRequests]: reads into a buffer of [n]
    bytes while bytes arrive without an error, one chunk a read.  A read
    that goes on takes at least one byte, so the length of the reader's
    slice bounds the number of rounds. *)
Fixpoint read_chunks (rounds : nat) (m : Snapshot.memory)
    (r : Snapshot.memoryReader) (n : N) : list (list byte) :=
  match rounds with
  | O => []
  | S k =>
      let '(got, err, r') := Snapshot.memoryReader_Read m r n in
      match got, err with
      | _ :: _, None => got :: read_chunks k m r' n
      | _, _ => []
      end
  end.

Definition chunks_of (m : Snapshot.memory) (snapshot : Snapshot.memorySnapshot)
  : list (list byte) :=
  let r := Snapshot.Snapshot_Reader snapshot in
  read_chunks (S (N.to_nat (Snapshot.s_len (Snapshot.r_s (Snapshot.reader r)))))
              m r (Z.to_N maxBatchSize).

Definition sendInstallRequests (m : Snapshot.memory) (a : memberAppender)
    (s : Server.RaftServer) (snapshot : Snapshot.memorySnapshot)
    (call : install_rpc) (startTime : Z)
  : memberAppender * list effect :=
  match call with
  | Install_NoClient => (a, [])
  | Install_NoStream =>
      let '(a', es) := handleInstallError a startTime in (a', Upstream <$> es)
  | Install_Closed reply =>
      let sent := (fun bytes => Stream_Send (newInstallRequest s snapshot bytes))
                  <$> chunks_of m snapshot in
      let '(a', es) :=
        match reply with
        | Some ResponseStatus_OK => handleInstallResponse a snapshot startTime
        | Some ResponseStatus_ERROR => handleInstallFailure a
        | None => handleInstallError a startTime
        end in
      (a', sent ++ (Upstream <$> es))
  end.

(** [append]: what the member appender does when the event loop starts an
    append.  [waited] is the outcome of the floating-point test
    [timeSinceFailure > heartbeatWaitTime] of the back-off; of the two
    calls to the peer the one that the appender makes is used.  As for
    [sendAppendRequest], [Returns] is the outcome of an append whose sends
    upstream are taken. *)
Definition append `{Log.Sized}
    (interference : Server.RaftServer → Server.RaftServer) (fuel : nat)
    (m : Snapshot.memory) (store : Snapshot.memorySnapshotStore)
    (a : memberAppender) (s : Server.RaftServer)
    (waited : bool) (currentIndex : Z)
    (call : rpc AppendResponse.t) (install : install_rpc) (startTime : Z)
  : option (outcome (memberAppender * Server.RaftServer * list effect)) :=
  let send_next :=
    match nextAppendRequest fuel a s currentIndex with
    | Some (request, a1) =>
        Some match sendAppendRequest interference a1 s request call startTime with
             | Returns (a2, s2, es) => Returns (a2, s2, Upstream <$> es)
             | Panics => Panics
             | BlocksForever (a2, s2, es) => BlocksForever (a2, s2, Upstream <$> es)
             end
    | None => None
    end in
  if minBackoffFailureCount <=? failureCount a then
    if waited then send_next else Some (Returns (a, s, []))
  else
    match Snapshot.CurrentSnapshot store with
    | Some snapshot =>
        if (snapshotIndex a <? Snapshot.Index snapshot)
           && (nextIndex a <=? Snapshot.Index snapshot)
        then
          let '(a', es) := sendInstallRequests m a s snapshot install startTime in
          Some (Returns (a', s, es))
        else send_next
    | None => send_next
    end.

End Replication.

(** ** appender.go: the rest of raftAppender *)

Module Commits.
Import Effects Appender.

(** The effects of the appender's own loop and of [stop]: those of
    [Effects], the call of [becomeFollower] that [failTime] makes itself,
    and what [stop] does. *)
Inductive effect :=
| Upstream (e : Effects.effect)
| Call_becomeFollower
| Call_member_stop (member : string).       (* member.stop() *)

(** What the appender's [select] receives: a commit of a member appender,
    a failure, or the stop signal.  A failure comes with what
    [failTime.Sub(a.lastQuorumTime)] measures. *)
Inductive event :=
| commitCh (member : MemberAppender.memberAppender) (index time : Z)
| failCh (failTime elapsed : Z)
| stopped.

Definition failTime (a : raftAppender) (elapsed : Z) : raftAppender * list effect :=
  if Int64.wrap (Server.electionTimeout (server a) * 2) <? elapsed then
    (set_server a (Server.setLeader (server a) Server.no_leader),
     [Upstream (Call_setLeader Server.no_leader); Call_becomeFollower])
  else (a, []).

(** How the loop stands after the events: it is back in its [select], it
    has returned, it blocks for ever, or it has panicked. *)
Inductive loop := Selecting | Returned | Blocked | Panicked.

(** [processCommits] over the events it receives; the events it did not
    get to are returned with the rest. *)
Fixpoint processCommits (fuel : nat) (a : raftAppender) (events : list event)
  : option (raftAppender * list effect * loop * list event) :=
  match events with
  | [] => Some (a, [], Selecting, [])
  | stopped :: rest => Some (a, [], Returned, rest)
  | failCh _ elapsed :: rest =>
      let '(a1, es) := failTime a elapsed in
      match processCommits fuel a1 rest with
      | Some (a2, es', l, unseen) => Some (a2, es ++ es', l, unseen)
      | None => None
      end
  | commitCh member index time :: rest =>
      match commit fuel a member index time with
      | Some (Returns (a1, es)) =>
          match processCommits fuel a1 rest with
          | Some (a2, es', l, unseen) =>
              Some (a2, (Upstream <$> es) ++ es', l, unseen)
          | None => None
          end
      | Some (BlocksForever (a1, es)) => Some (a1, Upstream <$> es, Blocked, rest)
      | Some Panics => Some (a, [], Panicked, rest)
      | None => None
      end
  end.

(** Where a [stop()] stays: at [a.mu.Lock()], or in a send on a [stopped]
    channel, that of a member appender or, with no members, its own. *)
Inductive stop_call :=
| Stop_locking
| Stop_sending (member : option string).

(** [stop()]: it begins by taking the mutex.  The mutex is free only as
    long as [start] has not run, and then no loop receives from any
    [stopped] channel, all of them unbuffered: [stop] stays in the send
    that ends the first [member.stop()], after that member has been made
    inactive, or, with no members, in its own [a.stopped <- true].
    [first] is the member the [range] yields first, whose order Go leaves
    open. *)
Definition stop (a : raftAppender) (first : string)
  : raftAppender * list effect * stop_call :=
  if mu a then (a, [], Stop_locking)
  else
    let first :=
      if decide (first ∈ dom (members a)) then Some first
      else fst <$> head (map_to_list (members a)) in
    match first with
    | Some id =>
        (mkAppender (server a)
           (alter Replication.stop id (members a)) (commitIndexes a)
           (commitTimes a) (heartbeatFutures a) (commitChannels a)
           (lastQuorumTime a) true (next_chan a),
         [Call_member_stop id], Stop_sending (Some id))
    | None =>
        (mkAppender (server a) (members a) (commitIndexes a)
           (commitTimes a) (heartbeatFutures a) (commitChannels a)
           (lastQuorumTime a) true (next_chan a),
         [], Stop_sending None)
    end.

End Commits.

(** ** roles/follower.go: the stop channel *)

Module FollowerSteps.
Import Follower.

(** [r.heartbeatTimer != nil && !r.heartbeatTimer.Stop()]: the follower
    has a timer and the timer has fired or been stopped. *)
Definition fired (r : FollowerRole) : bool :=
  match heartbeatTimer r with
  | Some t =>
      match timers r !! t with
      | Some tm => match state tm with Running => false | _ => true end
      | None => false
      end
  | None => false
  end.

(** The stop channel of the follower's timer, [make(chan bool, 1)], as a
    sender finds it: whether its one slot is taken, and whether the
    goroutine of the timer, the only receiver the channel has, is still in
    its [select]. *)
Record stop_chan := mkStop { taken : bool; awaited : bool }.

(** [heartbeatStop <- true].  With the slot free the send completes.  With
    the slot taken it waits for the goroutine to receive, and when the
    goroutine has left its [select] nobody ever will. *)
Inductive sending :=
| Completes (c : stop_chan)
| Waits
| Blocks.

Definition send (c : stop_chan) : sending :=
  if negb (taken c) then Completes (mkStop true (awaited c))
  else if awaited c then Waits else Blocks.

(** How a [resetHeartbeatTimeout] ends: it returns, or it stays in its
    send, holding the write lock, until the goroutine receives or for
    ever. *)
Inductive reset :=
| Reset_returns (r : FollowerRole) (c : stop_chan) (es : list effect)
| Reset_waits (es : list effect)
| Reset_blocks (es : list effect).

(** [resetHeartbeatTimeout] with its send.  [c] is the state of the
    channel that [r.heartbeatStop] is; a nil [heartbeatStop] blocks every
    send.  A timer that is armed comes with a fresh channel and a
    goroutine in its [select]. *)
Definition resetHeartbeatTimeout (r : FollowerRole) (c : stop_chan) (rnd : Z)
  : reset :=
  let '(r', es) := Follower.resetHeartbeatTimeout r rnd in
  if fired r then
    match heartbeatStop r with
    | None => Reset_blocks es
    | Some _ =>
        match send c with
        | Completes c' => Reset_returns r' c' es
        | Waits => Reset_waits es
        | Blocks => Reset_blocks es
        end
    end
  else Reset_returns r' (mkStop false true) es.

End FollowerSteps.
(** * Properties *)

Module Int64Facts.
Import Int64.

Lemma wrap_small z : in_range z -> wrap z = z.
Proof.
  unfold in_range, min_int, max_int, wrap. intros Hz.
  rewrite Z.mod_small by lia. lia.
Qed.

Lemma wrap_in_range z : in_range (wrap z).
Proof.
  unfold in_range, min_int, max_int, wrap.
  pose proof (Z.mod_pos_bound (z + 2 ^ 63) (2 ^ 64) ltac:(lia)). lia.
Qed.

Lemma add_small x y : in_range (x + y) -> add x y = x + y.
Proof. apply wrap_small. Qed.

Lemma sub_small x y : in_range (x - y) -> sub x y = x - y.
Proof. apply wrap_small. Qed.

End Int64Facts.

(** ** The snapshot store *)

Module SnapshotStoreFacts.
Import Snapshot.

Lemma run_snoc calls idx ts :
  run (calls ++ [(idx, ts)]) =
  (newSnapshot (run calls).1 (run calls).2 idx ts).1.
Proof.
  unfold run, run_from. rewrite foldl_app. simpl.
  by destruct (foldl _ _ calls).
Qed.

Lemma newSnapshot_current m st idx ts :
  CurrentSnapshot (newSnapshot m st idx ts).1.2 = Some (newSnapshot m st idx ts).2.
Proof. reflexivity. Qed.

Lemma newSnapshot_fields m st idx ts :
  Index (newSnapshot m st idx ts).2 = idx ∧
  Timestamp (newSnapshot m st idx ts).2 = ts.
Proof. split; reflexivity. Qed.

(** The claim of the specification: the current snapshot is none exactly
    when nothing was created, and otherwise no created snapshot has a
    higher index than it. *)
Definition returns_highest_index (calls : list (Z * Z)) : Prop :=
  match CurrentSnapshot (run calls).2 with
  | None => calls = []
  | Some s => Forall (fun c => c.1 <= Index s) calls
  end.

(** C5, as stated, fails: after [newSnapshot(5, 0)] and [newSnapshot(3, 0)]
    the current snapshot is the one of index 3, although the store also
    holds the one of index 5. *)
Lemma CurrentSnapshot_not_highest :
  ¬ returns_highest_index [(5, 0); (3, 0)].
Proof.
  unfold returns_highest_index. vm_compute.
  intros Hall. inversion Hall as [|c l Hle _]. apply Hle. reflexivity.
Qed.

(** C5, amended: on a fresh store [CurrentSnapshot()] returns none, and
    after any run of [newSnapshot] calls it returns the snapshot the last
    call created, held in the store under that call's index; when no
    earlier call had a higher index, this is a snapshot of the highest
    index created. *)
Theorem CurrentSnapshot_is_latest (calls : list (Z * Z)) (idx ts : Z) :
  CurrentSnapshot (run []).2 = None ∧
  ∃ s,
    CurrentSnapshot (run (calls ++ [(idx, ts)])).2 = Some s ∧
    s = (newSnapshot (run calls).1 (run calls).2 idx ts).2 ∧
    Index s = idx ∧ Timestamp s = ts ∧
    snapshots (run (calls ++ [(idx, ts)])).2 !! idx = Some s ∧
    (Forall (fun c => c.1 <= idx) calls →
     returns_highest_index (calls ++ [(idx, ts)])).
Proof.
  split; [reflexivity|].
  eexists. rewrite run_snoc. split; [apply newSnapshot_current|].
  split; [reflexivity|]. split; [reflexivity|]. split; [reflexivity|].
  split.
  - unfold newSnapshot. simpl. apply lookup_insert_eq.
  - intros Hle. unfold returns_highest_index.
    rewrite run_snoc, newSnapshot_current.
    apply Forall_app. split; [exact Hle|].
    constructor; [simpl; lia|constructor].
Qed.

Lemma CurrentSnapshot_is_latest_witness :
  Forall (fun c : Z * Z => c.1 <= 7) [(3, 10); (5, 20)] ∧
  returns_highest_index ([(3, 10); (5, 20)] ++ [(7, 30)]).
Proof.
  assert (Hle : Forall (fun c : Z * Z => c.1 <= 7) [(3, 10); (5, 20)]).
  { repeat constructor; simpl; lia. }
  split; [exact Hle|].
  destruct (CurrentSnapshot_is_latest [(3, 10); (5, 20)] 7 30)
    as [_ [s (_ & _ & _ & _ & _ & Hmax)]].
  exact (Hmax Hle).
Defined.

End SnapshotStoreFacts.

(** ** Snapshots: what a writer stores and what a reader sees *)

Module SnapshotFacts.
Import Snapshot.

Lemma load_store_eq m p i b : load (store m p i b) p i = b.
Proof.
  unfold load, store. simpl. rewrite lookup_insert_eq. simpl.
  by rewrite lookup_insert_eq.
Qed.

Lemma load_store_ne m p i b p' i' :
  p ≠ p' ∨ i ≠ i' → load (store m p i b) p' i' = load m p' i'.
Proof.
  intros Hne. unfold load, store. simpl.
  destruct (decide (p = p')) as [->|Hp].
  - rewrite lookup_insert_eq. simpl.
    destruct Hne as [?|Hi]; [done|]. rewrite lookup_insert_ne by done.
    by destruct (arrays m !! p').
  - by rewrite lookup_insert_ne.
Qed.

Lemma load_copy_at_before m p at_ src p' i :
  p ≠ p' ∨ (i < at_)%N → load (copy_at m p at_ src) p' i = load m p' i.
Proof.
  revert m at_. induction src as [|b src IH]; intros m at_ Hi; [done|].
  simpl. rewrite IH by lia. apply load_store_ne. lia.
Qed.

Lemma load_copy_at_in m p at_ src k b :
  src !! k = Some b → load (copy_at m p at_ src) p (at_ + N.of_nat k) = b.
Proof.
  revert m at_ k. induction src as [|c src IH]; intros m at_ k Hk; [done|].
  destruct k as [|k].
  - injection Hk as ->. simpl. rewrite N.add_0_r.
    rewrite load_copy_at_before by lia. apply load_store_eq.
  - replace (at_ + N.of_nat (S k))%N with (N.succ at_ + N.of_nat k)%N by lia.
    cbn [copy_at]. by apply IH.
Qed.

Lemma contents_eq m s l :
  N.to_nat (s_len s) = length l →
  (∀ k b, l !! k = Some b → load m (s_ptr s) (N.of_nat k) = b) →
  contents m s = l.
Proof.
  intros Hlen Hl. apply list_eq_same_length with (length l); [done| |].
  - unfold contents. by rewrite length_fmap, length_seq.
  - intros k x y Hk Hx Hy. unfold contents in Hx.
    rewrite list_lookup_fmap in Hx.
    rewrite lookup_seq_lt in Hx by lia. simpl in Hx.
    injection Hx as <-. by apply Hl.
Qed.

Lemma contents_lookup m s k b :
  contents m s !! k = Some b → load m (s_ptr s) (N.of_nat k) = b.
Proof.
  unfold contents. rewrite list_lookup_fmap.
  destruct (seq 0 (N.to_nat (s_len s)) !! k) as [j|] eqn:Hj; [|done].
  apply lookup_seq in Hj as [-> _]. simpl. congruence.
Qed.

Lemma contents_length m s : length (contents m s) = N.to_nat (s_len s).
Proof. unfold contents. by rewrite length_fmap, length_seq. Qed.

(** A write appends to what the buffer holds, whether the data fits in the
    capacity or the buffer moves to a larger array. *)
Lemma Buffer_Write_contents m b p :
  let '(m', b', n) := Buffer_Write m b p in
  contents m' (buf b') = contents m (buf b) ++ p ∧ n = N.of_nat (length p).
Proof.
  unfold Buffer_Write.
  destruct (N.of_nat (length p) <=? s_cap (buf b) - s_len (buf b))%N eqn:Hfit.
  - split; [|done]. apply contents_eq; simpl.
    + rewrite length_app, contents_length. lia.
    + intros k c Hk. destruct (decide (k < length (contents m (buf b)))%nat) as [Hlt|Hge].
      * rewrite lookup_app_l in Hk by done.
        rewrite load_copy_at_before by (rewrite contents_length in Hlt; lia).
        by apply contents_lookup.
      * rewrite lookup_app_r in Hk by lia. rewrite contents_length in Hk, Hge.
        replace (N.of_nat k)
          with (s_len (buf b) + N.of_nat (k - N.to_nat (s_len (buf b))))%N by lia.
        by apply load_copy_at_in.
  - simpl. split; [|done]. apply contents_eq; simpl.
    + rewrite length_app, contents_length. lia.
    + intros k c Hk. destruct (decide (k < length (contents m (buf b)))%nat) as [Hlt|Hge].
      * rewrite lookup_app_l in Hk by done.
        rewrite load_copy_at_before by (rewrite contents_length in Hlt; lia).
        replace (N.of_nat k) with (0 + N.of_nat k)%N by lia.
        by apply load_copy_at_in.
      * rewrite lookup_app_r in Hk by lia. rewrite contents_length in Hk, Hge.
        replace (N.of_nat k)
          with (s_len (buf b) + N.of_nat (k - N.to_nat (s_len (buf b))))%N by lia.
        by apply load_copy_at_in.
Qed.

(** After a sequence of writes the writer's buffer holds the bytes that
    were written, in order. *)
Lemma write_chunks_contents chunks m w :
  let '(m', w') := write_chunks m w chunks in
  contents m' (buf (writer w')) = contents m (buf (writer w)) ++ concat chunks.
Proof.
  revert m w. induction chunks as [|p chunks IH]; intros m w; simpl.
  - by rewrite app_nil_r.
  - unfold memoryWriter_Write.
    pose proof (Buffer_Write_contents m (writer w) p) as Hw.
    destruct (Buffer_Write m (writer w) p) as [[m1 b1] n1].
    destruct Hw as [Hw _].
    specialize (IH m1 (mkMemoryWriter b1)).
    destruct (write_chunks m1 (mkMemoryWriter b1) chunks) as [m2 w2].
    simpl in IH. rewrite IH, Hw. by rewrite <- app_assoc.
Qed.

(** The snapshot's own slice keeps length 0 whatever is written. *)
Lemma newSnapshot_bytes m st idx ts :
  s_len (bytes (newSnapshot m st idx ts).2) = 0%N.
Proof. reflexivity. Qed.

(** C4 on the code: whatever is written through a snapshot's writer, a
    reader opened on the snapshot afterwards reads no byte at all: its
    first [Read] returns 0 bytes and [io.EOF], and draining it gives the
    empty sequence, while the writer's own buffer holds the data. *)
Theorem reader_returns_nothing (m : memory) (st : memorySnapshotStore)
    (idx ts : Z) (chunks : list (list byte)) (n : N) :
  let '(m1, _, s) := newSnapshot m st idx ts in
  let '(m2, w) := write_chunks m1 (Snapshot_Writer s) chunks in
  memoryWriter_Close w = None ∧
  contents m2 (buf (writer w)) = concat chunks ∧
  memoryReader_Read m2 (Snapshot_Reader s) n = ([], Some EOF, Snapshot_Reader s) ∧
  read_all m2 (Snapshot_Reader s) n = [].
Proof.
  destruct (newSnapshot m st idx ts) as [[m1 st1] s] eqn:Hnew.
  pose proof (write_chunks_contents chunks m1 (Snapshot_Writer s)) as Hw.
  destruct (write_chunks m1 (Snapshot_Writer s) chunks) as [m2 w].
  assert (Hlen : s_len (bytes s) = 0%N).
  { replace s with (newSnapshot m st idx ts).2 by (by rewrite Hnew).
    apply newSnapshot_bytes. }
  assert (Hread : memoryReader_Read m2 (Snapshot_Reader s) n
                  = ([], Some EOF, Snapshot_Reader s)).
  { unfold memoryReader_Read, Snapshot_Reader, Reader_Read, NewReader. simpl.
    by rewrite Hlen. }
  split; [done|]. split.
  - rewrite Hw. unfold Snapshot_Writer, NewBuffer, contents. simpl.
    by rewrite Hlen.
  - split; [done|]. unfold read_all. simpl. by rewrite Hread.
Qed.

(** The round trip fails on two bytes written to the first snapshot of a
    fresh store. *)
Example roundtrip_fails :
  let '(m1, _, s) := newSnapshot empty_memory newMemorySnapshotStore 1 0 in
  let '(m2, w) := write_chunks m1 (Snapshot_Writer s) [[x01; x02]] in
  contents m2 (buf (writer w)) = [x01; x02] ∧
  read_all m2 (Snapshot_Reader s) 16 = [] ∧
  read_all m2 (Snapshot_Reader s) 16 ≠ [x01; x02].
Proof. vm_compute. by repeat split. Qed.

End SnapshotFacts.

(** ** The follower's heartbeat timer *)

Module FollowerFacts.
Import Follower.

(** The follower has no timer, or one that has neither fired nor been
    stopped. *)
Definition timer_pending (r : FollowerRole) : Prop :=
  match heartbeatTimer r with
  | None => True
  | Some t => ∃ tm, timers r !! t = Some tm ∧ state tm = Running
  end.

(** [r'] is [r] with its timer stopped, if it had one, and a fresh running
    timer of the given timeout in its place. *)
Definition rearmed (r r' : FollowerRole) (timeout : Z) : Prop :=
  heartbeatTimer r' = Some (length (timers r)) ∧
  heartbeatTimer r' ≠ heartbeatTimer r ∧
  timers r' !! length (timers r) = Some (mkTimer timeout Running) ∧
  match heartbeatTimer r with
  | None => True
  | Some t => state <$> timers r' !! t = Some Stopped
  end.

Definition untouched (r r' : FollowerRole) : Prop :=
  heartbeatTimer r' = heartbeatTimer r ∧ timers r' = timers r.

Lemma resetHeartbeatTimeout_rearms r rnd :
  timer_pending r →
  rearmed r (resetHeartbeatTimeout r rnd).1
          (Int64.add (ElectionTimeout (role r)) rnd).
Proof.
  unfold timer_pending, rearmed, resetHeartbeatTimeout.
  destruct (heartbeatTimer r) as [t|] eqn:Ht.
  - intros (tm & Htm & Hrun). rewrite Htm. unfold Timer_Stop. rewrite Hrun.
    simpl. pose proof (lookup_lt_Some _ _ _ Htm) as Hlt.
    rewrite !length_insert. repeat split.
    + intros [= Heq]. lia.
    + rewrite lookup_app_r by (rewrite length_insert; lia).
      rewrite length_insert. by rewrite Nat.sub_diag.
    + rewrite lookup_app_l by (rewrite length_insert; lia).
      by rewrite list_lookup_insert_eq.
  - intros _. simpl. repeat split; [done|].
    rewrite lookup_app_r by lia. by rewrite Nat.sub_diag.
Qed.

(** The timer of a follower whose timer already fired is not re-armed:
    the reset only signals the stop channel. *)
Lemma resetHeartbeatTimeout_expired r rnd t tm :
  heartbeatTimer r = Some t → timers r !! t = Some tm → state tm ≠ Running →
  resetHeartbeatTimeout r rnd = (r, [Send_heartbeatStop (heartbeatStop r)]).
Proof.
  intros Ht Htm Hst. unfold resetHeartbeatTimeout, Timer_Stop.
  rewrite Ht, Htm. by destruct (state tm).
Qed.

Lemma timeout_in_range et rnd :
  0 <= rnd < et → 2 * et <= Int64.max_int →
  et <= Int64.add et rnd < 2 * et.
Proof.
  intros Hrnd Het. rewrite Int64Facts.add_small; [lia|].
  unfold Int64.in_range, Int64.min_int, Int64.max_int in *. lia.
Qed.

(** The claim of the specification: a request that is turned down leaves
    the timer alone. *)
Definition rejected_requests_keep_timer : Prop :=
  (∀ r handled rnd, AppendResponse.Succeeded handled.2 = false →
     untouched r (Append r handled rnd).1.1) ∧
  (∀ r handled rnd, is_Some handled.2 →
     untouched r (Install r handled rnd).1.1) ∧
  (∀ r updated handled rnd, VoteResponse.Voted handled.2 = false →
     untouched r (Vote r updated handled rnd).1.1).

Definition three_members : ActiveRole :=
  mkActiveRole ["foo"; "bar"; "baz"]%string 5000 true.

(** A follower of a three-member cluster whose timer is running. *)
Definition waiting_follower : FollowerRole :=
  mkFollower three_members (Some 0%nat) (Some 0%nat) [mkTimer 6200 Running] 1.

(** C8, as stated, fails: the follower answers an [Append] that the
    inherited handler rejected, and its timer has been replaced by a fresh
    one all the same. *)
Lemma rejected_Append_resets_timer : ¬ rejected_requests_keep_timer.
Proof.
  intros (Happend & _ & _).
  destruct (Happend waiting_follower
              (three_members, AppendResponse.mk ResponseStatus_OK 7 false 0)
              1234 eq_refl) as [Htimer _].
  vm_compute in Htimer. discriminate Htimer.
Qed.

(** C8, amended: a follower whose timer is pending re-arms it after every
    [Append] and every [Install] it handles, whatever the inherited handler
    answered, and after a [Vote] exactly when the vote was granted; a
    [Vote] answered with [voted = false] leaves the timer as it was.  The
    fresh timeout is the election timeout plus the random number drawn. *)
Theorem follower_timer_resets (r : FollowerRole) (rnd : Z)
    (Hpending : timer_pending r) :
  (∀ handled,
      rearmed r (Append r handled rnd).1.1
              (Int64.add (ElectionTimeout handled.1) rnd) ∧
      (Append r handled rnd).1.2 = handled.2) ∧
  (∀ handled,
      rearmed r (Install r handled rnd).1.1
              (Int64.add (ElectionTimeout handled.1) rnd) ∧
      (Install r handled rnd).1.2 = handled.2) ∧
  (∀ updated handled,
      (Vote r updated handled rnd).1.2 = handled.2 ∧
      if VoteResponse.Voted handled.2
      then rearmed r (Vote r updated handled rnd).1.1
                   (Int64.add (ElectionTimeout handled.1) rnd)
      else untouched r (Vote r updated handled rnd).1.1).
Proof.
  assert (Hreset : ∀ role',
            rearmed r (resetHeartbeatTimeout (set_role r role') rnd).1
                    (Int64.add (ElectionTimeout role') rnd)).
  { intros role'.
    apply (resetHeartbeatTimeout_rearms (set_role r role') rnd Hpending). }
  split; [|split].
  - intros [role' response]. specialize (Hreset role'). unfold Append.
    destruct (resetHeartbeatTimeout (set_role r role') rnd) as [r' es]. done.
  - intros [role' err]. specialize (Hreset role'). unfold Install.
    destruct (resetHeartbeatTimeout (set_role r role') rnd) as [r' es]. done.
  - intros updated [role' response]. unfold Vote. simpl.
    destruct (VoteResponse.Voted response) eqn:Hvoted.
    + specialize (Hreset role').
      by destruct (resetHeartbeatTimeout (set_role r role') rnd) as [r' es].
    + done.
Qed.

Lemma follower_timer_resets_witness :
  timer_pending waiting_follower ∧
  rearmed waiting_follower
    (Append waiting_follower
       (three_members, AppendResponse.mk ResponseStatus_OK 7 false 0) 1234).1.1
    (Int64.add 5000 1234).
Proof.
  assert (Hpending : timer_pending waiting_follower).
  { exists (mkTimer 6200 Running). by split. }
  split; [exact Hpending|].
  exact (proj1 (proj1 (follower_timer_resets waiting_follower 1234 Hpending)
                  (three_members, AppendResponse.mk ResponseStatus_OK 7 false 0))).
Defined.

End FollowerFacts.

(** ** Responses to append requests *)

Module AppendResponseFacts.
Import Effects MemberAppender.

Lemma in_range_succ z : 0 <= z → z + 1 <= Int64.max_int → Int64.add z 1 = z + 1.
Proof.
  intros H0 Hmax. apply Int64Facts.add_small.
  unfold Int64.in_range, Int64.min_int, Int64.max_int in *. lia.
Qed.

(** C3: a rejected append.  When the response carries a term above the
    server's, the appender re-reads the term under the write lock; if the
    term is still lower it sets the term to the response's, clears the
    leader and starts the transition to follower, and otherwise it leaves
    the server alone: either way the term it leaves is not below the one
    it found, and nothing is requeued.  When the response's term is not
    higher, the server is untouched, a response whose last log index is
    below [matchIndex] resets [matchIndex] to it and [nextIndex] to the
    index after it, and the append is requeued at [nextIndex]. *)
Theorem rejected_append_response
    (interference : Server.RaftServer → Server.RaftServer)
    (a : memberAppender) (s : Server.RaftServer)
    (request : AppendRequest.t) (response : AppendResponse.t) (startTime : Z)
    (Hrejected : AppendResponse.Succeeded response = false)
    (Hindex : 0 <= AppendResponse.LastLogIndex response)
    (Hmax : AppendResponse.LastLogIndex response + 1 <= Int64.max_int) :
  ∃ a' s' es,
    handleAppendResponse interference a s request response startTime
      = Returns (a', s', es) ∧
    (Server.term s < AppendResponse.Term response →
       let found := interference s in
       Server.term found <= Server.term s' ∧
       a' = succeed a ∧
       (Server.term found < AppendResponse.Term response →
          Server.term s' = AppendResponse.Term response ∧
          Server.leader s' = Server.no_leader ∧
          Server.commitIndex s' = Server.commitIndex found ∧
          es = [Call_setTerm (AppendResponse.Term response);
                Call_setLeader Server.no_leader; Go_becomeFollower]) ∧
       (AppendResponse.Term response <= Server.term found →
          s' = found ∧ es = [])) ∧
    (AppendResponse.Term response <= Server.term s →
       s' = s ∧ es = [Send_appendCh (nextIndex a')] ∧
       (AppendResponse.LastLogIndex response < matchIndex a →
          matchIndex a' = AppendResponse.LastLogIndex response ∧
          nextIndex a' = matchIndex a' + 1) ∧
       (matchIndex a <= AppendResponse.LastLogIndex response →
          a' = succeed a)).
Proof.
  unfold handleAppendResponse. rewrite Hrejected.
  destruct (Server.term s <? AppendResponse.Term response) eqn:Hterm.
  - apply Z.ltb_lt in Hterm.
    destruct (Server.term (interference s) <? AppendResponse.Term response)
      eqn:Hterm2.
    + apply Z.ltb_lt in Hterm2. eexists _, _, _. split; [reflexivity|].
      split; [|lia]. intros _. simpl. repeat split; try done; lia.
    + apply Z.ltb_ge in Hterm2. eexists _, _, _. split; [reflexivity|].
      split; [|lia]. intros _. simpl. repeat split; try done; lia.
  - apply Z.ltb_ge in Hterm. eexists _, _, _. split; [reflexivity|].
    split; [lia|]. intros _. split; [done|]. split; [done|].
    change (matchIndex (succeed a)) with (matchIndex a).
    destruct (AppendResponse.LastLogIndex response <? matchIndex a) eqn:Hlast.
    + apply Z.ltb_lt in Hlast. split; [|lia]. intros _. simpl.
      split; [done|]. by apply in_range_succ.
    + apply Z.ltb_ge in Hlast. split; [lia|]. done.
Qed.

Definition peer : memberAppender :=
  mkMember "bar" true 0 2 8 7 true 3 0 (Log.mkLogReader [] 0) [].

Definition leader_server : Server.RaftServer := Server.mkServer 2 "foo" 5 5000.

Lemma rejected_append_response_witness :
  ∃ a' s' es,
    handleAppendResponse (fun s => s) peer leader_server
      (emptyAppendRequest peer leader_server)
      (AppendResponse.mk ResponseStatus_OK 2 false 4) 100
      = Returns (a', s', es) ∧
    matchIndex a' = 4 ∧ nextIndex a' = 5 ∧ s' = leader_server ∧
    es = [Send_appendCh 5].
Proof.
  destruct (rejected_append_response (fun s => s) peer leader_server
              (emptyAppendRequest peer leader_server)
              (AppendResponse.mk ResponseStatus_OK 2 false 4) 100
              eq_refl ltac:(simpl; lia) ltac:(vm_compute; discriminate))
    as (a' & s' & es & Hrun & _ & Hstay).
  exists a', s', es. split; [exact Hrun|].
  destruct (Hstay ltac:(simpl; lia)) as (-> & -> & Hreset & _).
  destruct (Hreset ltac:(simpl; lia)) as [Hm Hn].
  rewrite Hn, Hm. simpl. done.
Defined.

(** What every accepted response leaves of the appender: the match index
    is the response's last log index, the next index the one after it, the
    failure count 0, and nothing else has changed but, maybe, [prevTerm]. *)
Definition accepted (a a' : memberAppender) (response : AppendResponse.t) : Prop :=
  matchIndex a' = AppendResponse.LastLogIndex response ∧
  nextIndex a' = Int64.add (AppendResponse.LastLogIndex response) 1 ∧
  failureCount a' = 0 ∧
  member a' = member a ∧ active a' = active a ∧
  snapshotIndex a' = snapshotIndex a ∧ appending a' = appending a ∧
  firstFailureTime a' = firstFailureTime a ∧
  reader a' = reader a ∧ queue a' = queue a.

(** The position [response.LastLogIndex - request.PrevLogIndex - 1] at which
    the handler reads [request.Entries]. *)
Definition read_position (request : AppendRequest.t) (response : AppendResponse.t)
  : Z :=
  Int64.sub (Int64.sub (AppendResponse.LastLogIndex response)
                       (AppendRequest.PrevLogIndex request)) 1.

Lemma read_position_last (request : AppendRequest.t) (response : AppendResponse.t) :
  0 <= AppendRequest.PrevLogIndex request →
  AppendResponse.LastLogIndex response + 1 <= Int64.max_int →
  AppendResponse.LastLogIndex response
  = AppendRequest.PrevLogIndex request
    + Z.of_nat (length (AppendRequest.Entries request)) →
  read_position request response
  = Z.of_nat (length (AppendRequest.Entries request)) - 1.
Proof.
  intros Hprev Hmax Hcontract. unfold read_position.
  rewrite (Int64Facts.sub_small (AppendResponse.LastLogIndex response))
    by (unfold Int64.in_range, Int64.min_int, Int64.max_int in *; lia).
  rewrite Int64Facts.sub_small
    by (unfold Int64.in_range, Int64.min_int, Int64.max_int in *; lia).
  lia.
Qed.

(** C6: an accepted append.  Whatever the accepted response says, the
    handler either returns or panics.  When it returns, [matchIndex] is the
    response's last log index and [nextIndex] the index after it, the
    failure count is reset, nothing else of the appender has changed but
    [prevTerm], the server is untouched, and the commit event and the next
    index have been sent upstream, in this order; [prevTerm] is unchanged
    when no entries were sent and is otherwise the term of the entry at
    position [lastLogIndex - prevLogIndex - 1] of the request, whichever
    entry that is.  It panics exactly when entries were sent and that
    position is outside of them.  When the peer's last log index is the
    previous log index plus the number of entries sent, the position is
    [len(entries) - 1]: the read is in bounds, the handler returns and
    [prevTerm] is the term of the last entry sent.  Without that relation
    the read can be out of bounds: a response whose last log index is below
    the request's previous log index makes the handler panic. *)
Theorem accepted_append_response
    (interference : Server.RaftServer → Server.RaftServer)
    (a : memberAppender) (s : Server.RaftServer)
    (request : AppendRequest.t) (response : AppendResponse.t) (startTime : Z)
    (Haccepted : AppendResponse.Succeeded response = true) :
  let entries := AppendRequest.Entries request in
  let i := read_position request response in
  match handleAppendResponse interference a s request response startTime with
  | Returns (a', s', es) =>
      accepted a a' response ∧ s' = s ∧
      es = [Send_commitCh (member a) (AppendResponse.LastLogIndex response)
              startTime;
            Send_appendCh (Int64.add (AppendResponse.LastLogIndex response) 1)] ∧
      match entries with
      | [] => prevTerm a' = prevTerm a
      | _ :: _ => 0 <= i ∧ Log.Term <$> entries !! Z.to_nat i = Some (prevTerm a')
      end
  | Panics => entries ≠ [] ∧ (i < 0 ∨ Z.of_nat (length entries) <= i)
  | BlocksForever _ => False
  end ∧
  (0 <= AppendResponse.LastLogIndex response →
   AppendResponse.LastLogIndex response + 1 <= Int64.max_int →
   Int64.add (AppendResponse.LastLogIndex response) 1
   = AppendResponse.LastLogIndex response + 1) ∧
  (0 <= AppendRequest.PrevLogIndex request →
   AppendResponse.LastLogIndex response + 1 <= Int64.max_int →
   AppendResponse.LastLogIndex response
   = AppendRequest.PrevLogIndex request + Z.of_nat (length entries) →
   i = Z.of_nat (length entries) - 1 ∧
   ∃ a' es,
     handleAppendResponse interference a s request response startTime
       = Returns (a', s, es) ∧
     prevTerm a' = from_option Log.Term (prevTerm a) (last entries)) ∧
  (∃ request' response',
     AppendResponse.Succeeded response' = true ∧
     AppendRequest.Entries request' ≠ [] ∧
     handleAppendResponse interference a s request' response' startTime
       = Panics).
Proof.
  cbn zeta. split; [|split; [|split]].
  - unfold handleAppendResponse. rewrite Haccepted. fold (read_position request response).
    destruct (AppendRequest.Entries request) as [|e0 entries] eqn:Hentries.
    + change (0 <? length [])%nat with false. cbn iota.
      unfold accepted. repeat split.
    + change (0 <? length (e0 :: entries))%nat with true. cbn iota.
      destruct (Z.ltb_spec (read_position request response) 0) as [Hneg|Hpos].
      * split; [done|]. by left.
      * destruct ((e0 :: entries) !! Z.to_nat (read_position request response))
          as [e|] eqn:Hread.
        -- unfold accepted. repeat split; done.
        -- split; [done|]. right. apply lookup_ge_None in Hread. lia.
  - intros H0 Hmax. by apply in_range_succ.
  - intros Hprev Hmax Hcontract.
    pose proof (read_position_last request response Hprev Hmax Hcontract) as Hlast.
    split; [exact Hlast|].
    unfold handleAppendResponse. rewrite Haccepted.
    fold (read_position request response). rewrite Hlast.
    destruct (AppendRequest.Entries request) as [|e0 entries] eqn:Hentries.
    + change (0 <? length [])%nat with false. cbn iota. by eexists _, _.
    + change (0 <? length (e0 :: entries))%nat with true. cbn iota.
      destruct (Z.ltb_spec (Z.of_nat (length (e0 :: entries)) - 1) 0) as [Hneg|_];
        [cbn [length] in Hneg; lia|].
      replace (Z.to_nat (Z.of_nat (length (e0 :: entries)) - 1))
        with (pred (length (e0 :: entries))) by lia.
      rewrite <- last_lookup.
      destruct (last (e0 :: entries)) as [e|] eqn:Hlast'.
      * by eexists _, _.
      * by apply last_None in Hlast'.
  - exists (AppendRequest.mk 1 "foo" 5 1 [Log.mkEntry 1 0 Log.Initialize] 0),
           (AppendResponse.mk ResponseStatus_OK 1 true 3).
    split; [done|]. split; [done|]. reflexivity.
Qed.

Lemma accepted_append_response_witness :
  read_position
    (AppendRequest.mk 2 "foo" 7 2
       [Log.mkEntry 2 0 Log.Initialize; Log.mkEntry 3 0 Log.Initialize] 5)
    (AppendResponse.mk ResponseStatus_OK 2 true 9) = 2 - 1 ∧
  ∃ a' es,
    handleAppendResponse (fun s => s) peer leader_server
      (AppendRequest.mk 2 "foo" 7 2
         [Log.mkEntry 2 0 Log.Initialize; Log.mkEntry 3 0 Log.Initialize] 5)
      (AppendResponse.mk ResponseStatus_OK 2 true 9) 100
    = Returns (a', leader_server, es) ∧
    prevTerm a' = 3.
Proof.
  apply (proj1 (proj2 (proj2
           (accepted_append_response (fun s => s) peer leader_server
              (AppendRequest.mk 2 "foo" 7 2
                 [Log.mkEntry 2 0 Log.Initialize; Log.mkEntry 3 0 Log.Initialize] 5)
              (AppendResponse.mk ResponseStatus_OK 2 true 9) 100 eq_refl))));
    [cbn; lia|vm_compute; discriminate|reflexivity].
Defined.

End AppendResponseFacts.

(** ** The leader's commit index *)

Module CommitIndexFacts.
Import Effects Appender.

(** The index each peer is recorded at, 0 for a peer without a record. *)
Definition peer_indexes (a : raftAppender) : list Z :=
  (fun id => default 0 (commitIndexes a !! id)) <$> elements (dom (members a)).

(** What one round of the commit loop does at index [i]. *)
Definition commits_at (channels : gmap Z chan) (i : Z) : list effect :=
  Call_setCommitIndex i ::
  match channels !! i with
  | Some ch => [Send_commitChannel ch i]
  | None => []
  end.

Lemma padded_values_peers (cis : gmap string Z) (X : gset string) :
  dom cis ⊆ X →
  (map_to_list cis).*2 ++ replicate (size X - size cis) 0
  ≡ₚ (fun id => default 0 (cis !! id)) <$> elements X.
Proof.
  revert X. induction cis as [|i x m Hi _ IH] using map_first_key_ind; intros X Hdom.
  - rewrite map_to_list_empty, map_size_empty, Nat.sub_0_r. simpl.
    rewrite (const_fmap (fun id : string => default 0 ((∅ : gmap string Z) !! id))
               (elements X) 0) by (intros; by rewrite lookup_empty).
    reflexivity.
  - assert (HiX : i ∈ X).
    { apply Hdom. rewrite dom_insert. apply elem_of_union_l. by apply elem_of_singleton. }
    assert (Hsub : ({[i]} : gset string) ⊆ X) by (by apply singleton_subseteq_l).
    assert (Hdisj : ({[i]} : gset string) ## X ∖ {[i]}).
    { intros j Hj [_ Hnj]%elem_of_difference. done. }
    assert (HX : X = {[i]} ∪ X ∖ {[i]}) by (by apply union_difference_L).
    assert (Hdom' : dom m ⊆ X ∖ {[i]}).
    { intros j Hj. apply elem_of_difference. split.
      - apply Hdom. rewrite dom_insert. by apply elem_of_union_r.
      - intros ->%elem_of_singleton. apply elem_of_dom in Hj as [? ?]. congruence. }
    rewrite map_to_list_insert by done. rewrite map_size_insert_None by done.
    rewrite HX at 2. rewrite elements_disj_union by done.
    rewrite elements_singleton. simpl. rewrite lookup_insert_eq. simpl.
    constructor.
    replace (size X - S (size m))%nat with (size (X ∖ {[i]}) - size m)%nat.
    2: { rewrite size_difference by done. rewrite size_singleton. lia. }
    rewrite (IH _ Hdom').
    erewrite (list_fmap_ext _ (fun id => default 0 (<[i:=x]> m !! id)));
      [reflexivity|].
    intros k j Hj. apply list_elem_of_lookup_2, elem_of_elements in Hj.
    apply elem_of_difference in Hj as [_ Hj].
    rewrite lookup_insert_ne; [done|]. intros ->. apply Hj. by apply elem_of_singleton.
Qed.

Lemma commitLoop_runs (channels : gmap Z chan) (hi : Z) (n : nat) :
  ∀ fuel i s,
    Z.to_nat (hi + 1 - i) = n → (n <= fuel)%nat →
    Int64.min_int <= i → hi < Int64.max_int →
    commitLoop fuel i hi s channels
    = Some (if decide (i <= hi) then Server.setCommitIndex s hi else s,
            seqZ i (hi + 1 - i) ≫= commits_at channels).
Proof.
  induction n as [|n IH]; intros fuel i s Hn Hfuel Hmin Hmax.
  - assert (Hgt : hi < i) by lia.
    rewrite seqZ_nil by lia. rewrite decide_False by lia.
    destruct fuel; simpl; destruct (Z.leb_spec i hi); try lia; reflexivity.
  - assert (Hle : i <= hi) by lia.
    destruct fuel as [|fuel]; [lia|]. simpl.
    destruct (Z.leb_spec i hi); [|lia].
    rewrite Int64Facts.add_small
      by (unfold Int64.in_range, Int64.min_int, Int64.max_int in *; lia).
    rewrite (IH fuel (i + 1)) by lia.
    rewrite (seqZ_cons i) by lia. destruct (decide (i <= hi)) as [_|?]; [|lia].
    replace (Z.succ i) with (i + 1) by lia.
    replace (Z.pred (hi + 1 - i)) with (hi + 1 - (i + 1)) by lia.
    simpl. f_equal. f_equal.
    destruct (decide (i + 1 <= hi)); [reflexivity|].
    assert (i = hi) as -> by lia. by destruct s.
Qed.

Lemma sorted_values_peers (ms : gmap string MemberAppender.memberAppender)
    (cis : gmap string Z) :
  dom cis ⊆ dom ms →
  ∃ sorted,
    sorted_values (size ms) cis = Some sorted ∧
    sorted ≡ₚ (fun id => default 0 (cis !! id)) <$> elements (dom ms) ∧
    Sorted Z.le sorted ∧
    length sorted = size ms.
Proof.
  intros Hdom.
  assert (Hsize : (size cis <= size ms)%nat).
  { rewrite <- (size_dom cis), <- (size_dom ms). by apply subseteq_size. }
  unfold sorted_values. rewrite length_fmap, length_map_to_list.
  destruct (Nat.ltb_spec (size ms) (size cis)) as [?|_]; [lia|].
  eexists. split; [reflexivity|].
  assert (Hperm : merge_sort Z.le
                    ((map_to_list cis).*2 ++ replicate (size ms - size cis) 0)
                  ≡ₚ (fun id => default 0 (cis !! id)) <$> elements (dom ms)).
  { rewrite merge_sort_Permutation, <- (size_dom ms).
    by apply padded_values_peers. }
  split; [exact Hperm|]. split; [apply Sorted_merge_sort; apply _|].
  rewrite Hperm, length_fmap. apply size_dom.
Qed.

(** C1: a commit event that raises the index recorded for a peer.  The
    appender records the index, sorts the indexes recorded for its peers (0
    for a peer without a record) and takes the one at position
    [|members| / 2]; from the server's commit index on, one by one and in
    increasing order, it sets the commit index to every index up to that
    one and sends the index to the channel registered for it, if any.  The
    server's commit index ends at the larger of its old value and that
    index, so it does not decrease. *)
Theorem commit_index_advances (a : raftAppender) (member : string) (index : Z)
    (Hmember : member ∈ dom (members a))
    (Hdom : dom (commitIndexes a) ⊆ dom (members a))
    (Hraise : default 0 (commitIndexes a !! member) < index)
    (Hold : 0 <= Server.commitIndex (server a) < Int64.max_int)
    (Hindex : index < Int64.max_int)
    (Hrecorded : map_Forall (fun _ i => i < Int64.max_int) (commitIndexes a)) :
  ∃ sorted median a' es,
    sorted ≡ₚ peer_indexes a' ∧ Sorted Z.le sorted ∧
    sorted !! (size (members a) / 2)%nat = Some median ∧
    (∀ fuel,
       (Z.to_nat (median - Server.commitIndex (server a)) <= fuel)%nat →
       commitIndex fuel a member index = Some (Returns (a', es))) ∧
    commitIndexes a' = <[member := index]> (commitIndexes a) ∧
    members a' = members a ∧
    es = seqZ (Server.commitIndex (server a) + 1)
              (median - Server.commitIndex (server a))
         ≫= commits_at (commitChannels a) ∧
    Server.commitIndex (server a')
      = Z.max (Server.commitIndex (server a)) median ∧
    Server.commitIndex (server a) <= Server.commitIndex (server a').
Proof.
  set (old := Server.commitIndex (server a)) in *.
  set (cis := <[member := index]> (commitIndexes a)).
  assert (Hdom' : dom cis ⊆ dom (members a)).
  { unfold cis. rewrite dom_insert. intros j [->%elem_of_singleton|Hj]%elem_of_union.
    - exact Hmember.
    - by apply Hdom. }
  destruct (sorted_values_peers (members a) cis Hdom')
    as (sorted & Hsorted & Hperm & Hsort & Hlen).
  assert (Hpos : (0 < size (members a))%nat).
  { destruct (size (members a)) eqn:Hsz; [|lia].
    apply map_size_empty_iff in Hsz. rewrite Hsz, dom_empty in Hmember.
    by apply not_elem_of_empty in Hmember. }
  destruct (lookup_lt_is_Some_2 sorted (size (members a) / 2)) as [median Hmedian].
  { rewrite Hlen. apply Nat.div_lt; lia. }
  assert (Hbound : median < Int64.max_int).
  { apply list_elem_of_lookup_2 in Hmedian. rewrite Hperm in Hmedian.
    apply list_elem_of_fmap in Hmedian as (id & -> & _).
    unfold cis. destruct (decide (member = id)) as [->|Hne].
    - by rewrite lookup_insert_eq.
    - rewrite lookup_insert_ne by done.
      destruct (commitIndexes a !! id) as [i|] eqn:Hi; simpl.
      + by apply (Hrecorded id i).
      + unfold Int64.max_int. lia. }
  set (s' := if decide (old + 1 <= median)
             then Server.setCommitIndex (server a) median else server a).
  exists sorted, median,
    (mkAppender s' (members a) cis (commitTimes a) (heartbeatFutures a)
                (commitChannels a) (lastQuorumTime a) (mu a) (next_chan a)),
    (seqZ (old + 1) (median - old) ≫= commits_at (commitChannels a)).
  split; [exact Hperm|]. split; [exact Hsort|]. split; [exact Hmedian|].
  split.
  - intros fuel Hfuel. unfold commitIndex.
    destruct (Z.ltb_spec (default 0 (commitIndexes a !! member)) index); [|lia].
    cbn [members commitIndexes server commitChannels]. fold cis.
    rewrite Hsorted, Hmedian. fold old.
    rewrite Int64Facts.add_small
      by (unfold Int64.in_range, Int64.min_int, Int64.max_int in *; lia).
    rewrite (commitLoop_runs (commitChannels a) median
               (Z.to_nat (median + 1 - (old + 1))))
      by (unfold Int64.min_int; lia || (replace (median + 1 - (old + 1))
                                          with (median - old) by lia; lia)).
    replace (median + 1 - (old + 1)) with (median - old) by lia.
    reflexivity.
  - split; [reflexivity|]. split; [reflexivity|]. split; [reflexivity|].
    simpl. unfold s'. destruct (decide (old + 1 <= median)); simpl; fold old; lia.
Qed.

(** The appender of the leader [foo] of a three-member cluster, started
    on an empty log, with the server's commit index at 5. *)
Definition three_member_leader : raftAppender :=
  start (newAppender (Server.mkServer 2 "foo" 5 5000) ["foo"; "bar"; "baz"]
                     "foo" [] 0).

Lemma commit_index_advances_witness :
  ∃ sorted median a' es,
    sorted ≡ₚ peer_indexes a' ∧ Sorted Z.le sorted ∧
    sorted !! 1%nat = Some median ∧
    commitIndex (Z.to_nat (median - 5)) three_member_leader "bar" 7
      = Some (Returns (a', es)) ∧
    5 <= Server.commitIndex (server a').
Proof.
  assert (Hmember : "bar" ∈ dom (members three_member_leader)).
  { apply elem_of_dom. eexists. vm_compute. reflexivity. }
  assert (Hdom : dom (commitIndexes three_member_leader)
                 ⊆ dom (members three_member_leader)).
  { intros j Hj. apply elem_of_dom in Hj as [i Hi]. vm_compute in Hi.
    discriminate Hi. }
  destruct (commit_index_advances three_member_leader "bar" 7 Hmember Hdom
              ltac:(vm_compute; reflexivity)
              ltac:(split; vm_compute; [discriminate|reflexivity])
              ltac:(vm_compute; reflexivity)
              ltac:(intros j i Hi; vm_compute in Hi; discriminate Hi))
    as (sorted & median & a' & es & Hperm & Hsort & Hmedian & Hrun & _ & _ & _ & _ & Hmono).
  exists sorted, median, a', es.
  split; [exact Hperm|]. split; [exact Hsort|]. split; [exact Hmedian|].
  split; [|exact Hmono].
  apply (Hrun (Z.to_nat (median - 5))). apply Nat.le_refl.
Defined.

(** Run on the code: [bar] reports index 7 to the leader of the
    three-member cluster, whose commit index is 5; the sorted indexes are
    0 and 7, and the commit index goes through 6 to 7. *)
Example commit_index_example :
  commitIndex 2 three_member_leader "bar" 7
  = Some (Returns
       (mkAppender (Server.mkServer 2 "foo" 7 5000)
                   (members three_member_leader) {["bar" := 7]} ∅ [] ∅ 0 true 0,
        [Call_setCommitIndex 6; Call_setCommitIndex 7])).
Proof. vm_compute. reflexivity. Qed.

(** An event of a member appender that has been stopped is dropped. *)
Lemma commit_inactive fuel a member index t :
  MemberAppender.active member = false →
  commit fuel a member index t = Some (Returns (a, [])).
Proof. intros Hoff. unfold commit. by rewrite Hoff. Qed.

End CommitIndexFacts.

(** ** Heartbeats *)

Module HeartbeatFacts.
Import Effects Appender.

(** The channels a list of futures can be answered on. *)
Definition channels_of (futures : list heartbeatFuture) : list chan :=
  omap ch futures.

(** Resolving futures only touches the channels the futures carry. *)
Lemma resolveFutures_channels futures commitTime :
  ∀ e, e ∈ match resolveFutures futures commitTime with
           | Returns (_, es) | BlocksForever (_, es) => es
           | Panics => []
           end →
       ∃ c, c ∈ channels_of futures ∧ (e = Send_future c ∨ e = Close_future c).
Proof.
  induction futures as [|f futures IH]; intros e; simpl.
  - by intros ?%elem_of_nil.
  - destruct (time f <? commitTime); [|by intros ?%elem_of_nil].
    unfold channels_of. simpl. destruct (ch f) as [c|] eqn:Hc.
    + destruct (resolveFutures futures commitTime) as [[fs es]| |[fs es]];
        simpl in *.
      * intros [->|[->|He]%elem_of_cons]%elem_of_cons.
        -- exists c. split; [left|by left].
        -- exists c. split; [left|by right].
        -- destruct (IH e He) as (c' & Hc' & He'). exists c'. split; [by right|done].
      * by intros ?%elem_of_nil.
      * intros [->|[->|He]%elem_of_cons]%elem_of_cons.
        -- exists c. split; [left|by left].
        -- exists c. split; [left|by right].
        -- destruct (IH e He) as (c' & Hc' & He'). exists c'. split; [by right|done].
    + by intros ?%elem_of_nil.
Qed.

(** A pending future without a channel stops the resolution for good once
    the commit time has passed its time. *)
Lemma resolveFutures_nil_channel f futures commitTime :
  ch f = None → time f < commitTime →
  resolveFutures (f :: futures) commitTime = BlocksForever (f :: futures, []).
Proof.
  intros Hch Htime. simpl. rewrite Hch.
  by destruct (Z.ltb_spec (time f) commitTime); [|lia].
Qed.

(** What [heartbeat()] does on a leader with peers when it gets the
    mutex: the future it queues is the empty one, with no channel and the
    zero time; the zero time is what every peer is sent; and the call then
    waits on a channel of its own that no future carries. *)
Lemma heartbeat_queues_empty_future (a : raftAppender) :
  size (members a) ≠ 0%nat → mu a = false →
  (∀ f, f ∈ heartbeatFutures a → ch f ≠ Some (next_chan a)) →
  ∃ a',
    heartbeat a
    = (a', (fun m => Send_heartbeatCh m.1 zero_time) <$> map_to_list (members a),
       Receiving (next_chan a)) ∧
    heartbeatFutures a' = heartbeatFutures a ++ [mkFuture None zero_time] ∧
    next_chan a ∉ channels_of (heartbeatFutures a').
Proof.
  intros Hpeers Hfree Hfresh. unfold heartbeat. rewrite Hfree.
  destruct (Nat.eqb_spec (size (members a)) 0) as [?|_]; [done|].
  eexists. split; [reflexivity|]. split; [reflexivity|]. simpl.
  unfold channels_of. rewrite omap_app. simpl. rewrite app_nil_r.
  intros (f & Hf & Hc)%list_elem_of_omap. by apply (Hfresh f).
Qed.

(** On a started appender with peers [heartbeat()] does not get the mutex. *)
Lemma heartbeat_started (a : raftAppender) :
  size (members a) ≠ 0%nat → heartbeat (start a) = (start a, [], Locking).
Proof.
  intros Hpeers. unfold heartbeat. simpl. rewrite map_size_fmap.
  by destruct (Nat.eqb_spec (size (members a)) 0).
Qed.

(** The appender of the leader [foo] of a three-member cluster, not yet
    started. *)
Definition new_leader : raftAppender :=
  newAppender (Server.mkServer 2 "foo" 5 5000) ["foo"; "bar"; "baz"] "foo" [] 0.

(** The member appender of [bar], as the started appender holds it. *)
Definition bar : MemberAppender.memberAppender :=
  MemberAppender.start (MemberAppender.newMemberAppender "bar" []).

(** C2 on the code, on the leader of a three-member cluster.  Called on
    the started appender, [heartbeat()] stops at the mutex, which [start]
    holds.  Called before the appender is started, it queues a future that
    has neither a channel nor the time of the request, offers the zero time
    to both peers and then waits on channel 0, which nothing else knows;
    when the appender has been started and the answer of [bar] arrives,
    stamped 1000, [commitTime] stops at the mutex in its turn: nothing is
    sent or closed, the future stays queued, and the call returns neither
    [nil] nor the quorum error.  Without the mutex in the way the appender
    would go on to send on the future's nil channel, for ever. *)
Theorem heartbeat_never_returns :
  heartbeat (start new_leader) = (start new_leader, [], Locking) ∧
  (let '(a1, sends, waiting) := heartbeat new_leader in
   waiting = Receiving 0%nat ∧
   heartbeatFutures a1 = [mkFuture None zero_time] ∧
   sends ≡ₚ [Send_heartbeatCh "bar" zero_time; Send_heartbeatCh "baz" zero_time] ∧
   ∃ a2,
     commit 0 (start a1) bar 0 1000 = Some (BlocksForever (a2, [])) ∧
     commitTimes a2 = {["bar" := 1000]} ∧
     heartbeatFutures a2 = [mkFuture None zero_time]) ∧
  resolveFutures [mkFuture None zero_time] 1000
  = BlocksForever ([mkFuture None zero_time], []).
Proof.
  split; [|split].
  - vm_compute. reflexivity.
  - vm_compute. split; [reflexivity|]. split; [reflexivity|].
    split; [apply perm_swap|]. eexists. split; [reflexivity|]. split; reflexivity.
  - reflexivity.
Qed.

End HeartbeatFacts.

(** ** A cluster of one member *)

Module SingleNodeFacts.
Import Effects.

Lemma newAppender_alone s self log now :
  Appender.members (Appender.newAppender s [self] self log now) = ∅.
Proof. unfold Appender.newAppender. simpl. by rewrite decide_True. Qed.

(** C9: in a cluster of one member a new follower, on [Start], hands the
    node over to the candidate role at once and arms no timer; and the
    appender of a leader without peers answers [append(entry)] by setting
    the commit index to the entry's index and returning [nil], without
    waiting for anything. *)
Theorem single_node_cluster
    (raft started : Follower.ActiveRole) (heap : list Follower.timer)
    (c : nat) (rnd : Z) (a : Appender.raftAppender) (entry : Log.IndexedEntry)
    (Hsingle : length (Follower.Members raft) = 1%nat)
    (Halone : size (Appender.members a) = 0%nat) :
  let r := Follower.newFollowerRole raft heap c in
  Follower.Start r started rnd = (r, [Follower.Go_SetRole Follower.RoleCandidate]) ∧
  Follower.heartbeatTimer (Follower.Start r started rnd).1 = None ∧
  Follower.timers (Follower.Start r started rnd).1 = heap ∧
  ∃ a',
    Appender.append a entry
    = (a', [Call_setCommitIndex (Log.Index entry)], Appender.Returned None) ∧
    Server.commitIndex (Appender.server a') = Log.Index entry ∧
    Appender.commitChannels a' = Appender.commitChannels a.
Proof.
  simpl. unfold Follower.Start, Appender.append. simpl.
  rewrite Hsingle, Halone. simpl. repeat split. eexists. by repeat split.
Qed.

Lemma single_node_cluster_witness :
  let a := Appender.newAppender (Server.mkServer 1 "foo" 0 5000) ["foo"] "foo" [] 0 in
  let entry := Log.mkIndexed 1 (Log.mkEntry 1 0 Log.Initialize) in
  ∃ a',
    Appender.append a entry = (a', [Call_setCommitIndex 1], Appender.Returned None) ∧
    Server.commitIndex (Appender.server a') = 1.
Proof.
  set (raft := Follower.mkActiveRole ["foo"] 5000 false).
  destruct (single_node_cluster raft raft [] 0 0
              (Appender.newAppender (Server.mkServer 1 "foo" 0 5000) ["foo"] "foo" [] 0)
              (Log.mkIndexed 1 (Log.mkEntry 1 0 Log.Initialize))
              eq_refl eq_refl)
    as (_ & _ & _ & a' & Hrun & Hcommit & _).
  exists a'. split; [exact Hrun|exact Hcommit].
Defined.

End SingleNodeFacts.

(** ** Batched append requests *)

Module BatchFacts.
Import Effects MemberAppender.

Section entries.
Context `{Hsized : Log.Sized}.

(** The serialized size of a list of entries. *)
Definition total (es : list Log.RaftLogEntry) : Z :=
  foldr (fun e acc => Log.XXX_Size e + acc) 0 es.

Lemma total_app es1 es2 : total (es1 ++ es2) = total es1 + total es2.
Proof. induction es1 as [|e es1 IH]; simpl; lia. Qed.

(** Taking one entry into the batch: the step the queue case and the log
    case of the loop share. *)
Definition take_entry (fuel : nat) (entriesList : list Log.RaftLogEntry)
    (size nextIndex : Z) (queue : list Log.IndexedEntry)
    (reader : Log.RaftLogReader) (indexed : Log.IndexedEntry) :=
  if maxBatchSize <=? Int64.add size (Log.XXX_Size (Log.Entry indexed))
  then Some (entriesList ++ [Log.Entry indexed], queue, reader)
  else entriesLoop fuel (entriesList ++ [Log.Entry indexed])
         (Int64.add size (Log.XXX_Size (Log.Entry indexed)))
         (Int64.add nextIndex 1) queue reader.

Definition from_log (fuel : nat) (entriesList : list Log.RaftLogEntry)
    (size nextIndex : Z) (queue : list Log.IndexedEntry)
    (reader : Log.RaftLogReader) :=
  match List.find (fun e => Log.Index e =? nextIndex) (Log.entries reader) with
  | Some indexed =>
      take_entry fuel entriesList size nextIndex queue
        (Log.mkLogReader (Log.entries reader) (Int64.add nextIndex 1)) indexed
  | None => Some (entriesList, queue, Log.Reset reader nextIndex)
  end.

Lemma entriesLoop_S fuel entriesList size nextIndex queue reader :
  entriesLoop (S fuel) entriesList size nextIndex queue reader =
  if nextIndex <=? Log.LastIndex reader then
    match queue with
    | indexed :: queue' =>
        if Log.Index indexed =? nextIndex then
          take_entry fuel entriesList size nextIndex queue' reader indexed
        else if Log.Index indexed <? nextIndex then
          entriesLoop fuel entriesList size nextIndex queue' reader
        else from_log fuel entriesList size nextIndex queue reader
    | [] => from_log fuel entriesList size nextIndex queue reader
    end
  else Some (entriesList, queue, reader).
Proof.
  unfold from_log, take_entry. cbn [entriesLoop].
  unfold Log.NextEntry, Log.Reset. cbn [Log.entries Log.cursor].
  destruct (nextIndex <=? Log.LastIndex reader); [|reflexivity].
  destruct (List.find _ (Log.entries reader)); destruct queue; reflexivity.
Qed.

Lemma entriesLoop_done fuel entriesList size nextIndex queue reader :
  Log.LastIndex reader < nextIndex →
  entriesLoop fuel entriesList size nextIndex queue reader
  = Some (entriesList, queue, reader).
Proof.
  intros Hgt. destruct fuel; cbn [entriesLoop];
    destruct (Z.leb_spec nextIndex (Log.LastIndex reader)); (lia || reflexivity).
Qed.


(** The number of rounds the loop can still make. *)
Definition rounds (queue : list Log.IndexedEntry) (reader : Log.RaftLogReader)
    (nextIndex : Z) : nat :=
  (length queue + Z.to_nat (Log.LastIndex reader + 1 - nextIndex))%nat.

(** What a finished loop has gathered: the entries [picked], in order. *)
Definition gathered (size nextIndex : Z) (queue : list Log.IndexedEntry)
    (reader : Log.RaftLogReader) (picked queue' : list Log.IndexedEntry)
    (reader' : Log.RaftLogReader) : Prop :=
  Log.Index <$> picked = seqZ nextIndex (Z.of_nat (length picked)) ∧
  Forall (fun p => p ∈ queue ∨ p ∈ Log.entries reader) picked ∧
  queue' `suffix_of` queue ∧
  Log.entries reader' = Log.entries reader ∧
  (∀ init p, picked = init ++ [p] →
     size + total (Log.Entry <$> init) < maxBatchSize).

(** The entries of the queue and of the log have sizes that an [int] can
    add to a batch below the limit without wrapping around. *)
Definition sizes_fit (queue : list Log.IndexedEntry) (reader : Log.RaftLogReader)
  : Prop :=
  ∀ p, p ∈ queue ∨ p ∈ Log.entries reader →
       0 <= Log.XXX_Size (Log.Entry p) <= Int64.max_int - maxBatchSize.

Lemma gathered_cons size nextIndex queue reader indexed picked queue1 reader1
    queue' reader' :
  Log.Index indexed = nextIndex →
  0 <= size < maxBatchSize →
  indexed ∈ queue ∨ indexed ∈ Log.entries reader →
  (∀ p, p ∈ queue1 → p ∈ queue) → queue' `suffix_of` queue →
  Log.entries reader1 = Log.entries reader →
  gathered (size + Log.XXX_Size (Log.Entry indexed)) (nextIndex + 1)
           queue1 reader1 picked queue' reader' →
  gathered size nextIndex queue reader (indexed :: picked) queue' reader'.
Proof.
  intros Hidx Hsz Hin Hsub Hsuf Hrd (Hseq & Hall & _ & Hrd' & Hbound).
  split; [|split; [|split; [|split]]].
  - cbn [fmap list_fmap length]. rewrite Nat2Z.inj_succ, seqZ_cons by lia.
    rewrite Z.pred_succ. f_equal; [done|].
    replace (Z.succ nextIndex) with (nextIndex + 1) by lia. exact Hseq.
  - constructor; [done|]. eapply Forall_impl; [exact Hall|].
    intros p [Hp|Hp]; [left; by apply Hsub|right; by rewrite <- Hrd].
  - done.
  - by rewrite Hrd'.
  - intros init p Heq. destruct init as [|i0 init].
    + simpl. lia.
    + injection Heq as <- Heq. specialize (Hbound init p Heq).
      change (total (Log.Entry <$> indexed :: init))
        with (Log.XXX_Size (Log.Entry indexed) + total (Log.Entry <$> init)).
      lia.
Qed.

Lemma gathered_nil size nextIndex queue reader queue' reader' :
  queue' `suffix_of` queue → Log.entries reader' = Log.entries reader →
  gathered size nextIndex queue reader [] queue' reader'.
Proof.
  intros Hsuf Hrd. split; [done|]. split; [constructor|]. split; [done|].
  split; [done|]. intros init p Heq. by destruct init.
Qed.

Lemma gathered_weaken size nextIndex queue reader picked queue1 queue' reader' :
  (∀ p, p ∈ queue1 → p ∈ queue) → queue' `suffix_of` queue →
  gathered size nextIndex queue1 reader picked queue' reader' →
  gathered size nextIndex queue reader picked queue' reader'.
Proof.
  intros Hsub Hsuf (Hseq & Hall & _ & Hrd' & Hbound).
  split; [done|]. split; [|done].
  eapply Forall_impl; [exact Hall|]. intros p [Hp|Hp]; [left; by apply Hsub|by right].
Qed.

Lemma LastIndex_entries r1 r2 :
  Log.entries r1 = Log.entries r2 → Log.LastIndex r1 = Log.LastIndex r2.
Proof. unfold Log.LastIndex. by intros ->. Qed.

(** The loop ends, and what it ends with. *)
Lemma entriesLoop_gathers fuel :
  ∀ entriesList size nextIndex queue reader,
    sizes_fit queue reader →
    0 <= size < maxBatchSize →
    Int64.min_int <= nextIndex → Log.LastIndex reader < Int64.max_int →
    (rounds queue reader nextIndex <= fuel)%nat →
    ∃ picked queue' reader',
      entriesLoop fuel entriesList size nextIndex queue reader
      = Some (entriesList ++ (Log.Entry <$> picked), queue', reader') ∧
      gathered size nextIndex queue reader picked queue' reader'.
Proof.
  induction fuel as [|fuel IH];
    intros entriesList size nextIndex queue reader Hsizes Hsz Hmin Hmax Hfuel.
  { unfold rounds in Hfuel. exists [], queue, reader.
    rewrite entriesLoop_done by lia. rewrite app_nil_r.
    split; [done|]. by apply gathered_nil. }
  destruct (Z.leb_spec nextIndex (Log.LastIndex reader)) as [Hle|Hgt].
  2: { exists [], queue, reader. rewrite entriesLoop_done by lia.
       rewrite app_nil_r. split; [done|]. by apply gathered_nil. }
  assert (Hnext : Int64.add nextIndex 1 = nextIndex + 1).
  { apply Int64Facts.add_small.
    unfold Int64.in_range, Int64.min_int, Int64.max_int in *. lia. }
  (* taking [indexed], from a queue [queue1] and a reader [reader1] *)
  assert (Htake : ∀ indexed queue1 reader1,
            Log.Index indexed = nextIndex →
            indexed ∈ queue ∨ indexed ∈ Log.entries reader →
            (∀ p, p ∈ queue1 → p ∈ queue) → queue1 `suffix_of` queue →
            Log.entries reader1 = Log.entries reader →
            ∃ picked queue' reader',
              take_entry fuel entriesList size nextIndex queue1 reader1 indexed
              = Some (entriesList ++ (Log.Entry <$> picked), queue', reader') ∧
              gathered size nextIndex queue reader picked queue' reader').
  { intros indexed queue1 reader1 Hidx Hin Hsub Hsuf Hrd. unfold take_entry.
    pose proof (Hsizes indexed Hin) as Hentry.
    rewrite Int64Facts.add_small
      by (unfold Int64.in_range, Int64.min_int, Int64.max_int, maxBatchSize in *; lia).
    rewrite Hnext.
    destruct (Z.leb_spec maxBatchSize (size + Log.XXX_Size (Log.Entry indexed)))
      as [Hfull|Hroom].
    - exists [indexed], queue1, reader1. split; [done|].
      eapply gathered_cons; eauto. by apply gathered_nil.
    - destruct (IH (entriesList ++ [Log.Entry indexed])
                   (size + Log.XXX_Size (Log.Entry indexed)) (nextIndex + 1)
                   queue1 reader1) as (picked & queue' & reader' & Hrun & Hg);
        [|lia|lia|by rewrite (LastIndex_entries _ _ Hrd)| |].
      { intros p [Hp|Hp]; apply Hsizes; [left; by apply Hsub|right; by rewrite <- Hrd]. }
      { unfold rounds in *. rewrite (LastIndex_entries _ _ Hrd).
        pose proof (suffix_length _ _ Hsuf). lia. }
      exists (indexed :: picked), queue', reader'. split.
      + rewrite Hrun. by rewrite <- app_assoc.
      + eapply gathered_cons; eauto.
        destruct Hg as (_ & _ & Hsuf' & _). by etrans. }
  assert (Hlog : ∃ picked queue' reader',
            from_log fuel entriesList size nextIndex queue reader
            = Some (entriesList ++ (Log.Entry <$> picked), queue', reader') ∧
            gathered size nextIndex queue reader picked queue' reader').
  { unfold from_log.
    destruct (List.find _ (Log.entries reader)) as [indexed|] eqn:Hfind.
    - apply find_some in Hfind as [Hin Hidx]. apply Z.eqb_eq in Hidx.
      apply Htake; try done. right. by apply list_elem_of_In.
    - exists [], queue, (Log.Reset reader nextIndex). rewrite app_nil_r.
      split; [done|]. by apply gathered_nil. }
  rewrite entriesLoop_S. destruct (Z.leb_spec nextIndex (Log.LastIndex reader)); [|lia].
  destruct queue as [|indexed queue1]; [exact Hlog|].
  destruct (Z.eqb_spec (Log.Index indexed) nextIndex) as [Hidx|Hne].
  - apply Htake; try done.
    + left. by left.
    + intros p Hp. by right.
    + by apply suffix_cons_r.
  - destruct (Z.ltb_spec (Log.Index indexed) nextIndex) as [Hstale|_]; [|exact Hlog].
    destruct (IH entriesList size nextIndex queue1 reader)
      as (picked & queue' & reader' & Hrun & Hg); [|done|done|done| |].
    { intros p [Hp|Hp]; apply Hsizes; [left; by right|by right]. }
    { unfold rounds in *. simpl in Hfuel. lia. }
    exists picked, queue', reader'. split; [exact Hrun|].
    eapply gathered_weaken; [| |exact Hg].
    + intros p Hp. by right.
    + destruct Hg as (_ & _ & Hsuf' & _). by apply suffix_cons_r.
Qed.

(** The request [entriesAppendRequest] builds, from the loop's result. *)
Lemma entriesAppendRequest_gathers fuel (a : memberAppender) (s : Server.RaftServer) :
  sizes_fit (queue a) (reader a) →
  Int64.min_int <= nextIndex a → Log.LastIndex (reader a) < Int64.max_int →
  (rounds (queue a) (reader a) (nextIndex a) <= fuel)%nat →
  ∃ picked req a',
    entriesAppendRequest fuel a s = Some (req, a') ∧
    AppendRequest.Entries req = Log.Entry <$> picked ∧
    AppendRequest.PrevLogIndex req = Int64.sub (nextIndex a) 1 ∧
    gathered 0 (nextIndex a) (queue a) (reader a) picked (queue a') (reader a').
Proof.
  intros Hsizes Hmin Hmax Hfuel.
  destruct (entriesLoop_gathers fuel [] 0 (nextIndex a) (queue a) (reader a))
    as (picked & queue' & reader' & Hrun & Hg);
    [done|unfold maxBatchSize; lia|done|done|done|].
  unfold entriesAppendRequest. rewrite Hrun. simpl.
  eexists picked, _, _. split; [reflexivity|].
  split; [reflexivity|]. split; [reflexivity|]. exact Hg.
Qed.

(** C7, amended: the leader stops adding entries to a batched request as
    soon as the accumulated size reaches [maxBatchSize]: in the request it
    builds, from the queue or from the log, the entries before the last one
    total less than [maxBatchSize], so the whole batch exceeds
    [maxBatchSize] by less than the size of its last entry. *)
Theorem batch_stops_at_maxBatchSize (fuel : nat) (a : memberAppender)
    (s : Server.RaftServer)
    (Hsizes : sizes_fit (queue a) (reader a))
    (Hnext : Int64.min_int <= nextIndex a)
    (Hlast : Log.LastIndex (reader a) < Int64.max_int)
    (Hfuel : (rounds (queue a) (reader a) (nextIndex a) <= fuel)%nat) :
  ∃ req a',
    entriesAppendRequest fuel a s = Some (req, a') ∧
    ∀ init e, AppendRequest.Entries req = init ++ [e] →
      total init < maxBatchSize ∧
      total (AppendRequest.Entries req) < maxBatchSize + Log.XXX_Size e.
Proof.
  destruct (entriesAppendRequest_gathers fuel a s Hsizes Hnext Hlast Hfuel)
    as (picked & req & a' & Hrun & Hentries & _ & (_ & _ & _ & _ & Hbound)).
  exists req, a'. split; [exact Hrun|]. intros init e Heq.
  rewrite Hentries in Heq.
  apply fmap_app_inv in Heq as (init' & last' & -> & Hlast' & ->).
  destruct last' as [|p [|? ?]]; try discriminate Hlast'.
  specialize (Hbound init' p eq_refl).
  rewrite Hentries, fmap_app, total_app. injection Hlast' as ->. simpl. lia.
Qed.

(** What the log reader returns for [Reset(i)] and then [NextEntry()]. *)
Definition log_entry (reader : Log.RaftLogReader) (i : Z)
  : option Log.IndexedEntry :=
  (Log.NextEntry (Log.Reset reader i)).1.


(** What a finished loop has sent, [picked], and taken off the front of
    the queue, [consumed]: the entries sent have consecutive indexes from
    [nextIndex] on; each was taken off the queue or is what the log reader
    returned for its index; what was taken off the queue lies below the
    index the loop has reached; and the loop has stopped there for one of
    its three reasons: the log ends before that index, the batch is full,
    or the reader has no entry for that index while the queue, if it holds
    anything, goes on with a later one. *)
Definition sent (size nextIndex : Z) (reader : Log.RaftLogReader)
    (picked consumed queue' : list Log.IndexedEntry) : Prop :=
  Log.Index <$> picked = seqZ nextIndex (Z.of_nat (length picked)) ∧
  Forall (fun p => p ∈ consumed ∨ log_entry reader (Log.Index p) = Some p) picked ∧
  Forall (fun q => Log.Index q < nextIndex + Z.of_nat (length picked)) consumed ∧
  (Log.LastIndex reader < nextIndex + Z.of_nat (length picked) ∨
   maxBatchSize <= size + total (Log.Entry <$> picked) ∨
   (log_entry reader (nextIndex + Z.of_nat (length picked)) = None ∧
    ∀ q, head queue' = Some q → nextIndex + Z.of_nat (length picked) < Log.Index q)).







End entries.

(** *** Concrete batches *)

(** A size for the examples: the bytes of the command an entry carries,
    which its serialized form contains. *)
Definition command_bytes : Log.Sized :=
  fun e => match Log.Payload e with
           | Log.Command value => Z.of_nat (length value)
           | _ => 0
           end.

(** An entry at index 1 that carries a command of 2 MiB. *)
Definition large_entry : Log.IndexedEntry :=
  Log.mkIndexed 1
    (Log.mkEntry 1 0 (Log.Command (replicate (Z.to_nat (2 * 1024 * 1024)) x00))).

Lemma large_entry_size :
  command_bytes (Log.Entry large_entry) = 2 * 1024 * 1024.
Proof.
  unfold command_bytes, large_entry.
  cbn [Log.Entry Log.Payload]. rewrite length_replicate. lia.
Qed.

(** The appender of a peer that is to be sent the entry, which is both in
    the queue and in the log. *)
Definition sender_of_large_entry : memberAppender :=
  mkMember "bar" true 0 0 1 0 true 0 0 (Log.mkLogReader [large_entry] 0)
           [large_entry].

(** C7, as stated, fails: the request built for a queue that holds one
    entry of 2 MiB carries that entry, twice the size of [maxBatchSize]. *)
Lemma batch_exceeds_maxBatchSize :
  ∃ req a',
    entriesAppendRequest (H := command_bytes) 1 sender_of_large_entry
      (Server.mkServer 1 "foo" 0 5000) = Some (req, a') ∧
    AppendRequest.Entries req = [Log.Entry large_entry] ∧
    ¬ total (Hsized := command_bytes) (AppendRequest.Entries req) <= maxBatchSize.
Proof.
  unfold entriesAppendRequest, sender_of_large_entry.
  cbn [nextIndex queue reader]. rewrite entriesLoop_S.
  change (Log.LastIndex (Log.mkLogReader [large_entry] 0)) with 1.
  change (Log.Index large_entry) with 1.
  cbn [Z.leb Z.eqb Z.compare Pos.eqb Pos.compare]. unfold take_entry.
  change (@Log.XXX_Size command_bytes (Log.Entry large_entry))
    with (command_bytes (Log.Entry large_entry)).
  rewrite large_entry_size.
  change (maxBatchSize <=? Int64.add 0 (2 * 1024 * 1024)) with true.
  cbn iota. eexists _, _. split; [reflexivity|]. split; [reflexivity|].
  cbn [AppendRequest.Entries total foldr app].
  change (@Log.XXX_Size command_bytes (Log.Entry large_entry))
    with (command_bytes (Log.Entry large_entry)).
  rewrite large_entry_size. unfold maxBatchSize. lia.
Qed.

(** A peer at [nextIndex] 5 behind a log of seven small entries, with a
    queue that holds a stale entry, then the entries 5 and 7, but not 6. *)
Definition small (i : Z) : Log.IndexedEntry :=
  Log.mkIndexed i (Log.mkEntry 1 i (Log.Command [x01; x02; x03])).

Definition peer_with_gap : memberAppender :=
  mkMember "bar" true 0 1 5 4 true 0 0
           (Log.mkLogReader (small <$> seqZ 1 7) 0)
           [small 3; small 5; small 7].

Lemma peer_with_gap_sizes :
  sizes_fit (Hsized := command_bytes) (queue peer_with_gap) (reader peer_with_gap).
Proof.
  assert (Hall : Forall (fun p => 0 <= command_bytes (Log.Entry p)
                                  <= Int64.max_int - maxBatchSize)
                        (queue peer_with_gap ++ Log.entries (reader peer_with_gap))).
  { repeat constructor; vm_compute; discriminate. }
  intros p Hp. rewrite Forall_forall in Hall. apply Hall.
  apply elem_of_app. exact Hp.
Qed.

(** The gap at index 6 is filled from the log: the request carries the
    entries 5, 6 and 7, and the queue ends up empty. *)
Example request_over_gap :
  entriesAppendRequest (H := command_bytes) 10 peer_with_gap
    (Server.mkServer 1 "foo" 4 5000)
  = Some (AppendRequest.mk 1 "foo" 4 1
            [Log.Entry (small 5); Log.Entry (small 6); Log.Entry (small 7)] 4,
          set_reader (set_queue peer_with_gap [])
                     (Log.mkLogReader (small <$> seqZ 1 7) 7)).
Proof. vm_compute. reflexivity. Qed.

Lemma batch_stops_at_maxBatchSize_witness :
  ∃ req a',
    entriesAppendRequest (H := command_bytes) 10 peer_with_gap
      (Server.mkServer 1 "foo" 4 5000) = Some (req, a') ∧
    ∀ init e, AppendRequest.Entries req = init ++ [e] →
      total (Hsized := command_bytes) init < maxBatchSize ∧
      total (Hsized := command_bytes) (AppendRequest.Entries req)
        < maxBatchSize + command_bytes e.
Proof.
  apply (batch_stops_at_maxBatchSize (Hsized := command_bytes) 10 peer_with_gap
           (Server.mkServer 1 "foo" 4 5000) peer_with_gap_sizes).
  - vm_compute. discriminate.
  - vm_compute. reflexivity.
  - vm_compute. lia.
Defined.


End BatchFacts.

(** * Further properties *)

(** ** The index the leader commits is held by a majority *)

Module QuorumFacts.
Import Effects Appender CommitIndexFacts.

(** The number of peers recorded at index [x] or beyond. *)
Definition holders (a : raftAppender) (x : Z) : nat :=
  length (filter (Z.le x) (peer_indexes a)).

Lemma filter_all {A} (P : A → Prop) `{∀ x, Decision (P x)} (l : list A) :
  Forall P l → filter P l = l.
Proof.
  induction 1 as [|x l Hx _ IH]; [done|].
  rewrite filter_cons_True by done. by rewrite IH.
Qed.

Lemma filter_none {A} (P : A → Prop) `{∀ x, Decision (P x)} (l : list A) :
  Forall (fun x => ¬ P x) l → filter P l = [].
Proof.
  induction 1 as [|x l Hx _ IH]; [done|].
  by rewrite filter_cons_False.
Qed.

(** In a sorted list the element at position [k] has the [k] elements
    before it below or at it and all the others at or above it. *)
Lemma sorted_split (l : list Z) (k : nat) (x : Z) :
  Sorted Z.le l → l !! k = Some x →
  Forall (fun y => y <= x) (take k l) ∧ Forall (Z.le x) (drop k l).
Proof.
  intros Hsorted Hk. apply Sorted_StronglySorted in Hsorted; [|apply _].
  rewrite <- (take_drop_middle l k x Hk) in Hsorted.
  apply StronglySorted_app in Hsorted as (Hcross & _ & Hright).
  apply StronglySorted_cons in Hright as [Hright _].
  split.
  - apply Forall_forall. intros y Hy. apply (Hcross y x Hy). by left.
  - rewrite (drop_S l x k Hk). constructor; [lia|exact Hright].
Qed.

Lemma holders_at_position (l : list Z) (k : nat) (x : Z) :
  Sorted Z.le l → l !! k = Some x →
  (length l - k <= length (filter (Z.le x) l))%nat ∧
  ∀ y, x < y → (length (filter (Z.le y) l) <= length l - S k)%nat.
Proof.
  intros Hsorted Hk. destruct (sorted_split l k x Hsorted Hk) as [Hleft Hright].
  pose proof (lookup_lt_Some _ _ _ Hk) as Hlt.
  split.
  - rewrite <- (take_drop k l) at 2. rewrite filter_app, length_app.
    rewrite (filter_all _ (drop k l) Hright), length_drop. lia.
  - intros y Hy. rewrite <- (take_drop (S k) l) at 1.
    rewrite filter_app, length_app.
    rewrite (filter_none (Z.le y) (take (S k) l)).
    + simpl. etrans; [apply length_filter|]. rewrite length_drop. lia.
    + rewrite (take_S_r l k x Hk). apply Forall_app. split.
      * eapply Forall_impl; [exact Hleft|]. intros z Hz. simpl in *. lia.
      * constructor; [lia|constructor].
Qed.

(** What a finished commit loop leaves. *)
Lemma commitLoop_result (channels : gmap Z chan) (hi : Z) (fuel : nat) :
  ∀ i s s' es,
    Int64.min_int <= i → hi < Int64.max_int →
    commitLoop fuel i hi s channels = Some (s', es) →
    s' = (if decide (i <= hi) then Server.setCommitIndex s hi else s) ∧
    es = seqZ i (hi + 1 - i) ≫= commits_at channels.
Proof.
  intros i s s' es Hmin Hmax Hrun.
  destruct (Nat.le_gt_cases (Z.to_nat (hi + 1 - i)) fuel) as [Hfuel|Hshort].
  - rewrite (commitLoop_runs channels hi (Z.to_nat (hi + 1 - i)))
      in Hrun by done.
    by injection Hrun as <- <-.
  - exfalso. revert i s s' es Hmin Hrun Hshort.
    induction fuel as [|fuel IH]; intros i s s' es Hmin Hrun Hshort.
    + simpl in Hrun. destruct (Z.leb_spec i hi); [done|lia].
    + simpl in Hrun. destruct (Z.leb_spec i hi); [|lia].
      rewrite Int64Facts.add_small in Hrun
        by (unfold Int64.in_range, Int64.min_int, Int64.max_int in *; lia).
      destruct (commitLoop fuel (i + 1) hi (Server.setCommitIndex s i) channels)
        as [[s'' es'']|] eqn:Hrec; [|done].
      apply (IH (i + 1) _ _ _ ltac:(lia) Hrec). lia.
Qed.

(** X1: when a commit event has moved the server's commit index, the new
    commit index is held by a majority of the cluster, the leader counted
    in: more than half of the members are the leader or a peer recorded at
    that index or beyond.  It is the highest such index: for any index
    above it the leader and the peers recorded there are at most half of
    the cluster. *)
Theorem committed_index_has_quorum (fuel : nat) (a a' : raftAppender)
    (member : string) (index : Z) (es : list effect)
    (Hmember : member ∈ dom (members a))
    (Hdom : dom (commitIndexes a) ⊆ dom (members a))
    (Hold : 0 <= Server.commitIndex (server a) < Int64.max_int)
    (Hindex : index < Int64.max_int)
    (Hrecorded : map_Forall (fun _ i => i < Int64.max_int) (commitIndexes a))
    (Hrun : commitIndex fuel a member index = Some (Returns (a', es)))
    (Hmoved : Server.commitIndex (server a) < Server.commitIndex (server a')) :
  let cluster := S (size (members a')) in
  (cluster < 2 * S (holders a' (Server.commitIndex (server a'))))%nat ∧
  ∀ x, Server.commitIndex (server a') < x →
       (2 * S (holders a' x) <= cluster)%nat.
Proof.
  unfold commitIndex in Hrun.
  destruct (Z.ltb_spec (default 0 (commitIndexes a !! member)) index) as [Hraise|_].
  2: { injection Hrun as <- _. lia. }
  cbn [members commitIndexes server commitChannels] in Hrun.
  set (cis := <[member := index]> (commitIndexes a)) in *.
  assert (Hdom' : dom cis ⊆ dom (members a)).
  { unfold cis. rewrite dom_insert. intros j [->%elem_of_singleton|Hj]%elem_of_union.
    - exact Hmember.
    - by apply Hdom. }
  destruct (sorted_values_peers (members a) cis Hdom')
    as (sorted & Hsorted & Hperm & Hsort & Hlen).
  rewrite Hsorted in Hrun.
  destruct (sorted !! (size (members a) / 2)%nat) as [median|] eqn:Hmedian;
    [|discriminate Hrun].
  assert (Hbound : median < Int64.max_int).
  { apply list_elem_of_lookup_2 in Hmedian. rewrite Hperm in Hmedian.
    apply list_elem_of_fmap in Hmedian as (id & -> & _).
    unfold cis. destruct (decide (member = id)) as [->|Hne].
    - by rewrite lookup_insert_eq.
    - rewrite lookup_insert_ne by done.
      destruct (commitIndexes a !! id) as [i|] eqn:Hi; simpl.
      + by apply (Hrecorded id i).
      + unfold Int64.max_int. lia. }
  rewrite Int64Facts.add_small in Hrun
    by (unfold Int64.in_range, Int64.min_int, Int64.max_int in *; lia).
  destruct (commitLoop fuel (Server.commitIndex (server a) + 1) median
              (server a) (commitChannels a)) as [[s' es']|] eqn:Hloop;
    [|discriminate Hrun].
  injection Hrun as <- _.
  apply commitLoop_result in Hloop as [-> _];
    [|unfold Int64.min_int; lia|done].
  cbn [server set_server members] in *.
  assert (Hcommitted : (if decide (Server.commitIndex (server a) + 1 <= median)
                        then Server.setCommitIndex (server a) median
                        else server a) = Server.setCommitIndex (server a) median).
  { destruct (decide (Server.commitIndex (server a) + 1 <= median)) as [|Hno];
      [done|].
    lia. }
  rewrite Hcommitted. cbn [Server.commitIndex Server.setCommitIndex].
  destruct (holders_at_position sorted (size (members a) / 2) median Hsort Hmedian)
    as [Hheld Hmax].
  assert (Hcount : ∀ x, holders
            (mkAppender (Server.setCommitIndex (server a) median) (members a) cis
               (commitTimes a) (heartbeatFutures a) (commitChannels a)
               (lastQuorumTime a) (mu a) (next_chan a)) x
            = length (filter (Z.le x) sorted)).
  { intros x. unfold holders, peer_indexes. cbn [members commitIndexes].
    by rewrite Hperm. }
  pose proof (lookup_lt_Some _ _ _ Hmedian) as Hlt.
  rewrite Hlen in Hheld, Hmax, Hlt.
  pose proof (Nat.div_mod_eq (size (members a)) 2) as Hdiv.
  pose proof (Nat.mod_upper_bound (size (members a)) 2 ltac:(lia)) as Hmod.
  split.
  - rewrite Hcount. lia.
  - intros x Hx. rewrite Hcount. specialize (Hmax x Hx). lia.
Qed.

(** The appender of the three-member leader after [bar] has reported
    index 7. *)
Definition after_bar_reports_7 : raftAppender :=
  mkAppender (Server.mkServer 2 "foo" 7 5000) (members three_member_leader)
             {["bar" := 7]} ∅ [] ∅ 0 true 0.

Lemma committed_index_has_quorum_witness :
  (S (size (members after_bar_reports_7))
   < 2 * S (holders after_bar_reports_7
              (Server.commitIndex (server after_bar_reports_7))))%nat.
Proof.
  assert (Hmember : "bar" ∈ dom (members three_member_leader)).
  { apply elem_of_dom. eexists. vm_compute. reflexivity. }
  assert (Hdom : dom (commitIndexes three_member_leader)
                 ⊆ dom (members three_member_leader)).
  { intros j Hj. apply elem_of_dom in Hj as [i Hi]. vm_compute in Hi.
    discriminate Hi. }
  refine (proj1 (committed_index_has_quorum 2 three_member_leader
                   after_bar_reports_7 "bar" 7
                   [Call_setCommitIndex 6; Call_setCommitIndex 7]
                   Hmember Hdom _ _ _ _ _)).
  - split; vm_compute; [discriminate|reflexivity].
  - vm_compute. reflexivity.
  - intros j i Hi. vm_compute in Hi. discriminate Hi.
  - vm_compute. reflexivity.
  - vm_compute. reflexivity.
Defined.

End QuorumFacts.

(** ** More on the leader's appender *)

Module AppenderFacts.
Import Effects Appender CommitIndexFacts QuorumFacts.

(** The state a commit that raises a record leaves, given the index found
    at the middle of the sorted records. *)
Definition raised (a : raftAppender) (member : string) (index median : Z)
  : raftAppender :=
  mkAppender
    (if decide (Server.commitIndex (server a) + 1 <= median)
     then Server.setCommitIndex (server a) median else server a)
    (members a) (<[member := index]> (commitIndexes a)) (commitTimes a)
    (heartbeatFutures a) (commitChannels a) (lastQuorumTime a) (mu a)
    (next_chan a).

Section raise.
Context (a : raftAppender) (member : string) (index : Z).
Hypothesis Hmember : member ∈ dom (members a).
Hypothesis Hdom : dom (commitIndexes a) ⊆ dom (members a).
Hypothesis Hold : 0 <= Server.commitIndex (server a) < Int64.max_int.
Hypothesis Hindex : index < Int64.max_int.
Hypothesis Hrecorded : map_Forall (fun _ i => i < Int64.max_int) (commitIndexes a).
Hypothesis Hraise : default 0 (commitIndexes a !! member) < index.

Lemma raise_median :
  ∃ sorted median,
    sorted_values (size (members a)) (<[member := index]> (commitIndexes a))
      = Some sorted ∧
    sorted !! (size (members a) / 2)%nat = Some median ∧
    median < Int64.max_int.
Proof.
  set (cis := <[member := index]> (commitIndexes a)).
  assert (Hdom' : dom cis ⊆ dom (members a)).
  { unfold cis. rewrite dom_insert. intros j [->%elem_of_singleton|Hj]%elem_of_union.
    - exact Hmember.
    - by apply Hdom. }
  destruct (sorted_values_peers (members a) cis Hdom')
    as (sorted & Hsorted & Hperm & _ & Hlen).
  assert (Hpos : (0 < size (members a))%nat).
  { destruct (size (members a)) eqn:Hsz; [|lia].
    apply map_size_empty_iff in Hsz. rewrite Hsz, dom_empty in Hmember.
    by apply not_elem_of_empty in Hmember. }
  destruct (lookup_lt_is_Some_2 sorted (size (members a) / 2)) as [median Hmedian].
  { rewrite Hlen. apply Nat.div_lt; lia. }
  exists sorted, median. split; [done|]. split; [done|].
  apply list_elem_of_lookup_2 in Hmedian. rewrite Hperm in Hmedian.
  apply list_elem_of_fmap in Hmedian as (id & -> & _).
  unfold cis. destruct (decide (member = id)) as [->|Hne].
  - by rewrite lookup_insert_eq.
  - rewrite lookup_insert_ne by done.
    destruct (commitIndexes a !! id) as [i|] eqn:Hi; simpl.
    + by apply (Hrecorded id i).
    + unfold Int64.max_int. lia.
Qed.

(** With fuel for the loop the commit returns, and whatever the fuel, a
    commit that returns has left this state and these effects. *)
Lemma commitIndex_raise :
  ∃ median,
    (∀ fuel,
       (Z.to_nat (median - Server.commitIndex (server a)) <= fuel)%nat →
       commitIndex fuel a member index
       = Some (Returns (raised a member index median,
                        seqZ (Server.commitIndex (server a) + 1)
                             (median - Server.commitIndex (server a))
                        ≫= commits_at (commitChannels a)))) ∧
    (∀ fuel a' es,
       commitIndex fuel a member index = Some (Returns (a', es)) →
       a' = raised a member index median ∧
       es = seqZ (Server.commitIndex (server a) + 1)
                 (median - Server.commitIndex (server a))
            ≫= commits_at (commitChannels a)).
Proof.
  destruct raise_median as (sorted & median & Hsorted & Hmedian & Hbound).
  exists median.
  assert (Hstart : Int64.add (Server.commitIndex (server a)) 1
                   = Server.commitIndex (server a) + 1).
  { apply Int64Facts.add_small.
    unfold Int64.in_range, Int64.min_int, Int64.max_int in *. lia. }
  assert (Hunfold : ∀ fuel,
            commitIndex fuel a member index
            = match commitLoop fuel (Server.commitIndex (server a) + 1) median
                      (server a) (commitChannels a) with
              | Some (s, es) =>
                  Some (Returns
                    (mkAppender s (members a) (<[member := index]> (commitIndexes a))
                       (commitTimes a) (heartbeatFutures a) (commitChannels a)
                       (lastQuorumTime a) (mu a) (next_chan a), es))
              | None => None
              end).
  { intros fuel. unfold commitIndex.
    destruct (Z.ltb_spec (default 0 (commitIndexes a !! member)) index); [|lia].
    cbn [members commitIndexes server commitChannels].
    rewrite Hsorted, Hmedian, Hstart.
    by destruct (commitLoop fuel _ median (server a) (commitChannels a))
      as [[s es]|]. }
  split.
  - intros fuel Hfuel. rewrite Hunfold.
    rewrite (commitLoop_runs (commitChannels a) median
               (Z.to_nat (median + 1 - (Server.commitIndex (server a) + 1))))
      by (unfold Int64.min_int;
          lia || (replace (median + 1 - (Server.commitIndex (server a) + 1))
                    with (median - Server.commitIndex (server a)) by lia; lia)).
    replace (median + 1 - (Server.commitIndex (server a) + 1))
      with (median - Server.commitIndex (server a)) by lia.
    reflexivity.
  - intros fuel a' es Hrun. rewrite Hunfold in Hrun.
    destruct (commitLoop fuel (Server.commitIndex (server a) + 1) median
                (server a) (commitChannels a)) as [[s es']|] eqn:Hloop;
      [|discriminate Hrun].
    injection Hrun as <- <-.
    apply commitLoop_result in Hloop as [-> ->];
      [|unfold Int64.min_int; lia|done].
    replace (median + 1 - (Server.commitIndex (server a) + 1))
      with (median - Server.commitIndex (server a)) by lia.
    done.
Qed.

End raise.

(** X2: the appender never lowers the index it has recorded for a peer.  A
    commit event leaves the peer recorded at the larger of its record and
    the event's index and leaves every other record alone; an event whose
    index is not above the record changes nothing and does nothing; the
    records stay records of peers. *)
Theorem peer_records_never_fall (fuel : nat) (a a' : raftAppender)
    (member : string) (index : Z) (es : list effect)
    (Hrun : commitIndex fuel a member index = Some (Returns (a', es))) :
  (∀ m, default 0 (commitIndexes a !! m) <= default 0 (commitIndexes a' !! m)) ∧
  default 0 (commitIndexes a' !! member)
    = Z.max (default 0 (commitIndexes a !! member)) index ∧
  (∀ m, m ≠ member → commitIndexes a' !! m = commitIndexes a !! m) ∧
  members a' = members a ∧
  (member ∈ dom (members a) → dom (commitIndexes a) ⊆ dom (members a) →
   dom (commitIndexes a') ⊆ dom (members a')) ∧
  (index <= default 0 (commitIndexes a !! member) → a' = a ∧ es = []).
Proof.
  unfold commitIndex in Hrun.
  destruct (Z.ltb_spec (default 0 (commitIndexes a !! member)) index) as [Hraise|Hstale].
  - cbn [members commitIndexes server commitChannels] in Hrun.
    destruct (sorted_values _ _) as [sorted|]; [|discriminate Hrun].
    destruct (sorted !! _) as [median|]; [|discriminate Hrun].
    destruct (commitLoop _ _ _ _ _) as [[s es']|]; [|discriminate Hrun].
    injection Hrun as <- _. cbn [commitIndexes set_server members].
    split; [|split; [|split; [|split; [|split]]]].
    + intros m. destruct (decide (member = m)) as [->|Hne].
      * rewrite lookup_insert_eq. simpl. lia.
      * by rewrite lookup_insert_ne.
    + rewrite lookup_insert_eq. simpl. lia.
    + intros m Hne. by rewrite lookup_insert_ne.
    + done.
    + intros Hmember Hdom. rewrite dom_insert.
      intros j [->%elem_of_singleton|Hj]%elem_of_union; [done|by apply Hdom].
    + lia.
  - injection Hrun as <- <-. repeat split; try done; lia.
Qed.

Lemma peer_records_never_fall_witness :
  default 0 (commitIndexes after_bar_reports_7 !! "bar")
  = Z.max (default 0 (commitIndexes three_member_leader !! "bar")) 7.
Proof.
  refine (proj1 (proj2 (peer_records_never_fall 2 three_member_leader
                          after_bar_reports_7 "bar" 7
                          [Call_setCommitIndex 6; Call_setCommitIndex 7] _))).
  vm_compute. reflexivity.
Defined.

(** X3: [append(entry)] on a leader with peers registers a channel of its
    own under the entry's index, offers the entry to every peer once and
    waits on the channel; a commit event that then takes the server's
    commit index from below the entry's index to that index or beyond
    sends the index on that very channel, which is the value the waiting
    call returns [nil] on. *)
Theorem append_is_answered (fuel : nat) (a a2 : raftAppender)
    (entry : Log.IndexedEntry) (member : string) (index : Z) (es : list effect)
    (Hpeers : size (members a) ≠ 0%nat)
    (Hmember : member ∈ dom (members a))
    (Hdom : dom (commitIndexes a) ⊆ dom (members a))
    (Hold : 0 <= Server.commitIndex (server a) < Int64.max_int)
    (Hindex : index < Int64.max_int)
    (Hrecorded : map_Forall (fun _ i => i < Int64.max_int) (commitIndexes a))
    (Hrun : commitIndex fuel (append a entry).1.1 member index
            = Some (Returns (a2, es)))
    (Hcommitted : Server.commitIndex (server a) < Log.Index entry
                  <= Server.commitIndex (server a2)) :
  (append a entry).2 = Receiving (next_chan a) ∧
  commitChannels (append a entry).1.1 !! Log.Index entry = Some (next_chan a) ∧
  length (append a entry).1.2 = size (members a) ∧
  (∀ m, m ∈ dom (members a) ↔ Send_entryCh m entry ∈ (append a entry).1.2) ∧
  Send_commitChannel (next_chan a) (Log.Index entry) ∈ es ∧
  received true "failed to commit entry" = None.
Proof.
  unfold append in *.
  destruct (Nat.eqb_spec (size (members a)) 0) as [?|_]; [done|].
  cbn [fst snd] in *.
  split; [done|]. split; [apply lookup_insert_eq|].
  split; [by rewrite length_fmap, length_map_to_list|]. split.
  { intros m. rewrite list_elem_of_fmap. split.
    - intros [x Hx]%elem_of_dom. exists (m, x). split; [done|].
      by apply elem_of_map_to_list.
    - intros ([m' x] & [= ->] & Hx). apply elem_of_dom. exists x.
      by apply elem_of_map_to_list in Hx. }
  split; [|done].
  set (a1 := mkAppender _ _ _ _ _ _ _ _ _) in Hrun.
  destruct (Z.ltb_spec (default 0 (commitIndexes a1 !! member)) index)
    as [Hraise|Hstale].
  2: { unfold commitIndex in Hrun.
       destruct (Z.ltb_spec (default 0 (commitIndexes a1 !! member)) index);
         [lia|].
       injection Hrun as <- _. simpl in Hcommitted. lia. }
  destruct (commitIndex_raise a1 member index Hmember Hdom Hold Hindex
              Hrecorded Hraise) as (median & _ & Hresult).
  destruct (Hresult fuel a2 es Hrun) as [-> ->].
  cbn [server raised a1 commitChannels Server.commitIndex] in *.
  apply list_elem_of_bind. exists (Log.Index entry). split.
  - unfold commits_at. rewrite lookup_insert_eq. right. by left.
  - apply elem_of_seqZ.
    destruct (decide (Server.commitIndex (server a) + 1 <= median));
      simpl in Hcommitted; lia.
Qed.

(** The first entry the three-member leader appends after its commit index
    of 5. *)
Definition sixth_entry : Log.IndexedEntry :=
  Log.mkIndexed 6 (Log.mkEntry 2 0 (Log.Command [x01])).

Lemma append_is_answered_witness :
  Send_commitChannel 0%nat 6
  ∈ [Call_setCommitIndex 6; Send_commitChannel 0%nat 6; Call_setCommitIndex 7].
Proof.
  assert (Hmember : "bar" ∈ dom (members three_member_leader)).
  { apply elem_of_dom. eexists. vm_compute. reflexivity. }
  assert (Hdom : dom (commitIndexes three_member_leader)
                 ⊆ dom (members three_member_leader)).
  { intros j Hj. apply elem_of_dom in Hj as [i Hi]. vm_compute in Hi.
    discriminate Hi. }
  refine (proj1 (proj2 (proj2 (proj2 (proj2
    (append_is_answered 2 three_member_leader
       (mkAppender (Server.mkServer 2 "foo" 7 5000)
          (members three_member_leader) {["bar" := 7]} ∅ [] {[6 := 0%nat]} 0
          true 1)
       sixth_entry "bar" 7
       [Call_setCommitIndex 6; Send_commitChannel 0%nat 6; Call_setCommitIndex 7]
       _ Hmember Hdom _ _ _ _ _)))))).
  - vm_compute. discriminate.
  - split; vm_compute; [discriminate|reflexivity].
  - vm_compute. reflexivity.
  - intros j i Hi. vm_compute in Hi. discriminate Hi.
  - vm_compute. reflexivity.
  - split; vm_compute; [reflexivity|discriminate].
Defined.

(** X6: a new appender has a member appender for every member of the
    cluster but the server itself, and for nobody else; each is the new
    member appender of its member, which is inactive, has an empty queue, a
    match index of 0 and the index after the log's last as its next index.
    Nothing is recorded yet, and the mutex is free. *)
Theorem newAppender_members (s : Server.RaftServer) (cluster : list string)
    (self : string) (log : list Log.IndexedEntry) (now : Z) :
  let a := newAppender s cluster self log now in
  (∀ id, id ∈ dom (members a) ↔ id ∈ cluster ∧ id ≠ self) ∧
  (∀ id m, members a !! id = Some m →
     m = MemberAppender.newMemberAppender id log ∧
     MemberAppender.member m = id ∧
     MemberAppender.active m = false ∧
     MemberAppender.queue m = [] ∧
     MemberAppender.matchIndex m = 0 ∧
     MemberAppender.nextIndex m
       = Int64.add (from_option Log.Index 0 (last log)) 1) ∧
  commitIndexes a = ∅ ∧ commitTimes a = ∅ ∧ heartbeatFutures a = [] ∧
  commitChannels a = ∅ ∧ mu a = false ∧ server a = s.
Proof.
  cbn zeta. unfold newAppender. cbn [members commitIndexes commitTimes
    heartbeatFutures commitChannels mu server].
  set (add := fun (ms : gmap string MemberAppender.memberAppender) id =>
                if decide (id = self) then ms
                else <[id := MemberAppender.newMemberAppender id log]> ms).
  assert (Hfold : ∀ l (acc : gmap string MemberAppender.memberAppender) id,
            foldl add acc l !! id
            = if decide (id ∈ l ∧ id ≠ self)
              then Some (MemberAppender.newMemberAppender id log)
              else acc !! id).
  { induction l as [|x l IH]; intros acc id; cbn [foldl].
    - rewrite decide_False; [done|]. intros [?%elem_of_nil _]. done.
    - rewrite IH. unfold add.
      destruct (decide (id ∈ l ∧ id ≠ self)) as [[Hin Hne]|Hnot].
      + rewrite decide_True; [done|]. split; [by right|done].
      + destruct (decide (x = self)) as [->|Hx].
        * rewrite decide_False; [done|].
          intros [[->|Hin]%elem_of_cons Hne]; [done|]. by apply Hnot.
        * destruct (decide (id = x)) as [->|Hid].
          -- rewrite lookup_insert_eq. rewrite decide_True; [done|].
             split; [by left|done].
          -- rewrite lookup_insert_ne by done. rewrite decide_False; [done|].
             intros [[->|Hin]%elem_of_cons Hne]; [done|]. by apply Hnot. }
  split; [|split; [|done]].
  - intros id. rewrite elem_of_dom, Hfold, lookup_empty.
    destruct (decide (id ∈ cluster ∧ id ≠ self)) as [H|H].
    + split; [done|]. by eexists.
    + split; [by intros [? ?]|done].
  - intros id m Hm. rewrite Hfold, lookup_empty in Hm.
    destruct (decide (id ∈ cluster ∧ id ≠ self)); [|done].
    injection Hm as <-. done.
Qed.

(** A commit returns with enough fuel, and leaves everything but the
    records and the server as it was. *)
Lemma commitIndex_returns (a : raftAppender) (member : string) (index : Z) :
  member ∈ dom (members a) → dom (commitIndexes a) ⊆ dom (members a) →
  0 <= Server.commitIndex (server a) < Int64.max_int →
  index < Int64.max_int →
  map_Forall (fun _ i => i < Int64.max_int) (commitIndexes a) →
  ∃ fuel0 a' es,
    (∀ fuel, (fuel0 <= fuel)%nat →
       commitIndex fuel a member index = Some (Returns (a', es))) ∧
    members a' = members a ∧ commitTimes a' = commitTimes a ∧
    heartbeatFutures a' = heartbeatFutures a ∧
    lastQuorumTime a' = lastQuorumTime a ∧ mu a' = mu a.
Proof.
  intros Hmember Hdom Hold Hindex Hrecorded.
  destruct (Z.ltb_spec (default 0 (commitIndexes a !! member)) index) as [Hraise|Hstale].
  - destruct (commitIndex_raise a member index Hmember Hdom Hold Hindex
                Hrecorded Hraise) as (median & Hrun & _).
    eexists _, _, _. split; [exact Hrun|]. done.
  - exists 0%nat, a, []. split; [|done]. intros fuel _. unfold commitIndex.
    by destruct (Z.ltb_spec (default 0 (commitIndexes a !! member)) index); [lia|].
Qed.

(** X5: a started appender handles one commit event and no more.  [start]
    holds the appender's mutex while [processCommits] runs; the first
    commit event of an active member whose time is later than the time
    recorded for the member moves the commit index as any commit does and
    then blocks for ever in [commitTime], which wants the same mutex: the
    pending futures and the last quorum time are untouched, and no event
    behind the first is ever taken from the channels. *)
Theorem started_appender_handles_one_commit (a : raftAppender)
    (member : MemberAppender.memberAppender) (index t : Z)
    (rest : list Commits.event)
    (Hstarted : mu a = true)
    (Hactive : MemberAppender.active member = true)
    (Hmember : MemberAppender.member member ∈ dom (members a))
    (Hdom : dom (commitIndexes a) ⊆ dom (members a))
    (Htimes : dom (commitTimes a) ⊆ dom (members a))
    (Hold : 0 <= Server.commitIndex (server a) < Int64.max_int)
    (Hindex : index < Int64.max_int)
    (Hrecorded : map_Forall (fun _ i => i < Int64.max_int) (commitIndexes a))
    (Hlater : default zero_time (commitTimes a !! MemberAppender.member member) < t) :
  ∃ fuel0 a' es,
    (∀ fuel, (fuel0 <= fuel)%nat →
       commitIndex fuel a (MemberAppender.member member) index
         = Some (Returns (a', es)) ∧
       Commits.processCommits fuel a (Commits.commitCh member index t :: rest)
         = Some (mkAppender (server a') (members a') (commitIndexes a')
                   (<[MemberAppender.member member := t]> (commitTimes a))
                   (heartbeatFutures a) (commitChannels a')
                   (lastQuorumTime a) true (next_chan a'),
                 Commits.Upstream <$> es, Commits.Blocked, rest)).
Proof.
  destruct (commitIndex_returns a (MemberAppender.member member) index
              Hmember Hdom Hold Hindex Hrecorded)
    as (fuel0 & a' & es & Hrun & Hmembers & Htimes' & Hfutures & Hquorum & Hmu).
  exists fuel0, a', es. intros fuel Hfuel. split; [by apply Hrun|].
  cbn [Commits.processCommits]. unfold commit. rewrite Hactive.
  cbn [negb]. rewrite (Hrun fuel Hfuel).
  unfold commitTime. rewrite Htimes'.
  destruct (Z.ltb_spec (default zero_time
              (commitTimes a !! MemberAppender.member member)) t); [|lia].
  cbn [members commitTimes heartbeatFutures mu]. rewrite Hmembers.
  assert (Hdom' : dom (<[MemberAppender.member member := t]> (commitTimes a))
                  ⊆ dom (members a)).
  { rewrite dom_insert. intros j [->%elem_of_singleton|Hj]%elem_of_union.
    - exact Hmember.
    - by apply Htimes. }
  destruct (sorted_values_peers (members a) _ Hdom')
    as (sorted & Hsorted & _ & _ & Hlen).
  rewrite Hsorted.
  destruct (lookup_lt_is_Some_2 sorted (size (members a) / 2)) as [median Hmedian].
  { rewrite Hlen. apply Nat.div_lt; [|lia].
    destruct (size (members a)) eqn:Hsz; [|lia].
    apply map_size_empty_iff in Hsz. rewrite Hsz, dom_empty in Hmember.
    by apply not_elem_of_empty in Hmember. }
  rewrite Hmedian, Hmu, Hstarted. cbn iota.
  rewrite app_nil_r, Hfutures, Hquorum. reflexivity.
Qed.

Lemma started_appender_handles_one_commit_witness :
  ∃ fuel0 a' es,
    ∀ fuel, (fuel0 <= fuel)%nat →
      commitIndex fuel three_member_leader "bar" 7 = Some (Returns (a', es)) ∧
      Commits.processCommits fuel three_member_leader
        [Commits.commitCh HeartbeatFacts.bar 7 1000;
         Commits.commitCh HeartbeatFacts.bar 8 2000; Commits.stopped]
      = Some (mkAppender (server a') (members a') (commitIndexes a')
                (<["bar" := 1000]> (commitTimes three_member_leader))
                (heartbeatFutures three_member_leader) (commitChannels a')
                (lastQuorumTime three_member_leader) true (next_chan a'),
              Commits.Upstream <$> es, Commits.Blocked,
              [Commits.commitCh HeartbeatFacts.bar 8 2000; Commits.stopped]).
Proof.
  assert (Hmember : "bar" ∈ dom (members three_member_leader)).
  { apply elem_of_dom. eexists. vm_compute. reflexivity. }
  assert (Hdom : dom (commitIndexes three_member_leader)
                 ⊆ dom (members three_member_leader)).
  { intros j Hj. apply elem_of_dom in Hj as [i Hi]. vm_compute in Hi.
    discriminate Hi. }
  assert (Htimes : dom (commitTimes three_member_leader)
                   ⊆ dom (members three_member_leader)).
  { intros j Hj. apply elem_of_dom in Hj as [i Hi]. vm_compute in Hi.
    discriminate Hi. }
  refine (started_appender_handles_one_commit three_member_leader
            HeartbeatFacts.bar 7 1000 _ eq_refl eq_refl Hmember Hdom Htimes
            _ _ _ _).
  - split; vm_compute; [discriminate|reflexivity].
  - vm_compute. reflexivity.
  - intros j i Hi. vm_compute in Hi. discriminate Hi.
  - vm_compute. reflexivity.
Defined.

End AppenderFacts.

(** ** More on the member appenders *)

Module ReplicationFacts.
Import Effects MemberAppender Replication.

(** *** The event loop *)

Definition arrival (ev : event) : Prop :=
  match ev with
  | entryCh _ | tickCh => True
  | _ => False
  end.

(** The entries among the events, in their order. *)
Definition arrived (events : list event) : list Log.IndexedEntry :=
  omap (fun ev => match ev with entryCh e => Some e | _ => None end) events.

(** X10: entries and ticks start one append at most.  Over any run of
    entry and tick events the loop goes on; it starts a single append, at
    the first event, when none was in flight, and none when one was; the
    entries join the queue in their order when the failure count is 0 and
    are all dropped when it is not; nothing else about the appender
    changes.  So nothing but a value on [appendCh] lets a second append
    start. *)
Theorem arrivals_start_one_append (a : memberAppender) (events : list event)
    (Harrivals : Forall arrival events) :
  let '(a', started, running) := processEvents a events in
  running = true ∧
  started = (if appending a then []
             else match events with [] => [] | _ => [go_append] end) ∧
  appending a' = (appending a || match events with [] => false | _ => true end) ∧
  queue a' = (if decide (failureCount a = 0)
              then queue a ++ arrived events else queue a) ∧
  failureCount a' = failureCount a ∧ nextIndex a' = nextIndex a ∧
  matchIndex a' = matchIndex a ∧ reader a' = reader a ∧ active a' = active a.
Proof.
  revert a. induction Harrivals as [|ev events Hev _ IH]; intros a.
  - simpl. destruct (appending a), (decide (failureCount a = 0));
      by rewrite ?app_nil_r.
  - cbn [processEvents].
    destruct (processEvent a ev) as [[a1 started1] running1] eqn:Hstep.
    assert (Hone : running1 = true ∧
              started1 = (if appending a then [] else [go_append]) ∧
              appending a1 = true ∧
              queue a1 = (if decide (failureCount a = 0)
                          then queue a ++ arrived [ev] else queue a) ∧
              failureCount a1 = failureCount a ∧ nextIndex a1 = nextIndex a ∧
              matchIndex a1 = matchIndex a ∧ reader a1 = reader a ∧
              active a1 = active a).
    { destruct ev as [e| | | |]; try done; unfold processEvent in Hstep.
      - destruct (Z.eqb_spec (failureCount a) 0) as [Hzero|Hfailed];
          [rewrite decide_True by done|rewrite decide_False by done];
          simpl in Hstep; destruct (appending a) eqn:Happ; simpl in Hstep;
          injection Hstep as <- <- <-; simpl; by rewrite ?Happ.
      - destruct (appending a) eqn:Happ; simpl in Hstep;
          injection Hstep as <- <- <-; simpl; rewrite ?Happ;
          by destruct (decide (failureCount a = 0)); rewrite ?app_nil_r. }
    destruct Hone as (-> & -> & Happ1 & Hq1 & Hf1 & Hn1 & Hm1 & Hr1 & Hact1).
    specialize (IH a1).
    destruct (processEvents a1 events) as [[a2 started2] running2].
    destruct IH as (-> & -> & Happ2 & Hq2 & Hf2 & Hn2 & Hm2 & Hr2 & Hact2).
    rewrite Happ1 in *. rewrite Hf1 in *.
    split; [done|]. split; [by destruct (appending a); rewrite ?app_nil_r|].
    split; [by rewrite Happ2, orb_true_r|].
    split; [|by rewrite Hf2, Hn2, Hm2, Hr2, Hact2].
    rewrite Hq2. destruct (decide (failureCount a = 0)); [|done].
    rewrite Hq1, <- app_assoc. f_equal.
    unfold arrived. by destruct ev.
Qed.

Lemma arrivals_start_one_append_witness :
  let '(a', started, running) :=
    processEvents (BatchFacts.peer_with_gap)
      [entryCh (BatchFacts.small 8); tickCh; entryCh (BatchFacts.small 9)] in
  started = [] ∧
  queue a' = queue BatchFacts.peer_with_gap
             ++ [BatchFacts.small 8; BatchFacts.small 9].
Proof.
  pose proof (arrivals_start_one_append BatchFacts.peer_with_gap
                [entryCh (BatchFacts.small 8); tickCh; entryCh (BatchFacts.small 9)])
    as H.
  destruct (processEvents _ _) as [[a' started] running].
  destruct H as (_ & Hstarted & _ & Hqueue & _).
  { repeat constructor. }
  split; [exact Hstarted|exact Hqueue].
Defined.

(** *** Failures *)

(** A round that fails: the peer answers with an error status, or the call
    itself fails. *)
Inductive failure :=
| Rejected (startTime : Z)
| Unreachable (startTime : Z).

Definition failed_at (f : failure) : Z :=
  match f with Rejected t | Unreachable t => t end.

Definition fails (a : memberAppender) (f : failure)
  : memberAppender * list Effects.effect :=
  match f with
  | Rejected t => handleAppendFailure a t
  | Unreachable t => handleAppendError a t
  end.

Fixpoint fails_all (a : memberAppender) (fs : list failure)
  : memberAppender * list Effects.effect :=
  match fs with
  | [] => (a, [])
  | f :: rest =>
      let '(a1, es) := fails a f in
      let '(a2, es') := fails_all a1 rest in
      (a2, es ++ es')
  end.

Definition is_requeue (e : Effects.effect) : bool :=
  match e with Send_appendCh _ => true | _ => false end.

Definition reported_failure (e : Effects.effect) : option Z :=
  match e with Send_failCh t => Some t | _ => None end.

(** X7: the appender counts the failures since the last success and keeps
    the time of the first of them.  After a run of failed rounds the
    failure count has grown by their number, the first failure time is
    that of the first failed round if the count was 0 and is unchanged if
    it was not, every failure has been reported upstream with its time, in
    order, and has requeued the append once at the unchanged next index;
    the next success takes the count back to 0. *)
Theorem failures_are_counted (a : memberAppender) (fs : list failure)
    (Hcount : 0 <= failureCount a)
    (Hroom : failureCount a + Z.of_nat (length fs) <= Int64.max_int) :
  let '(a', es) := fails_all a fs in
  failureCount a' = failureCount a + Z.of_nat (length fs) ∧
  firstFailureTime a'
    = (if decide (failureCount a = 0)
       then from_option failed_at (firstFailureTime a) (head fs)
       else firstFailureTime a) ∧
  omap reported_failure es = failed_at <$> fs ∧
  List.filter is_requeue es = replicate (length fs) (Send_appendCh (nextIndex a)) ∧
  nextIndex a' = nextIndex a ∧ matchIndex a' = matchIndex a ∧
  queue a' = queue a ∧ reader a' = reader a ∧
  failureCount (succeed a') = 0.
Proof.
  revert a Hcount Hroom. induction fs as [|f fs IH]; intros a Hcount Hroom.
  - simpl. repeat split; try done; [lia|by destruct (decide _)].
  - cbn [fails_all].
    assert (Hone : ∃ a1 es1,
              fails a f = (a1, es1) ∧
              failureCount a1 = failureCount a + 1 ∧
              firstFailureTime a1
                = (if decide (failureCount a = 0) then failed_at f
                   else firstFailureTime a) ∧
              omap reported_failure es1 = [failed_at f] ∧
              List.filter is_requeue es1 = [Send_appendCh (nextIndex a)] ∧
              nextIndex a1 = nextIndex a ∧ matchIndex a1 = matchIndex a ∧
              queue a1 = queue a ∧ reader a1 = reader a).
    { assert (Hadd : Int64.add (failureCount a) 1 = failureCount a + 1).
      { apply Int64Facts.add_small. cbn [length] in Hroom.
        unfold Int64.in_range, Int64.min_int, Int64.max_int in *. lia. }
      destruct f as [t|t]; cbn [fails];
        unfold handleAppendFailure, handleAppendError, fail;
        destruct (Z.eqb_spec (failureCount a) 0) as [Hzero|Hfailed];
        [rewrite decide_True by done|rewrite decide_False by done
        |rewrite decide_True by done|rewrite decide_False by done];
        eexists _, _; (split; [reflexivity|]); simpl; by rewrite Hadd. }
    destruct Hone as (a1 & es1 & -> & Hc1 & Hf1 & Hrep1 & Hreq1 & Hn1 & Hm1
                      & Hq1 & Hr1).
    specialize (IH a1). destruct (fails_all a1 fs) as [a2 es2].
    destruct IH as (Hc2 & Hf2 & Hrep2 & Hreq2 & Hn2 & Hm2 & Hq2 & Hr2 & Hs2).
    { lia. }
    { cbn [length] in Hroom. lia. }
    split; [cbn [length]; lia|]. split.
    { rewrite Hf2. rewrite decide_False by lia. rewrite Hf1.
      by destruct (decide (failureCount a = 0)). }
    split; [by rewrite omap_app, Hrep1, Hrep2|].
    split; [by rewrite List.filter_app, Hreq1, Hreq2, Hn1|].
    by rewrite Hn2, Hm2, Hq2, Hr2, Hn1, Hm1, Hq1, Hr1.
Qed.

Lemma failures_are_counted_witness :
  let '(a', es) :=
    fails_all (succeed AppendResponseFacts.peer)
      [Unreachable 10; Rejected 20; Unreachable 30] in
  failureCount a' = 3 ∧ firstFailureTime a' = 10 ∧
  omap reported_failure es = [10; 20; 30].
Proof.
  pose proof (failures_are_counted (succeed AppendResponseFacts.peer)
                [Unreachable 10; Rejected 20; Unreachable 30]) as H.
  destruct (fails_all _ _) as [a' es].
  destruct H as (Hcount & Hfirst & Hreported & _).
  { simpl. lia. }
  { vm_compute. discriminate. }
  split; [exact Hcount|]. split; [exact Hfirst|exact Hreported].
Defined.

(** *** Rounds *)

(** The rounds that leave the event loop without a word: no client for the
    member, or a rejection that carries a term above the server's. *)
Definition silent (s : Server.RaftServer) (call : rpc AppendResponse.t) : bool :=
  match call with
  | NoClient => true
  | Failed => false
  | Replied response =>
      match AppendResponse.Status response with
      | ResponseStatus_OK =>
          negb (AppendResponse.Succeeded response)
          && (Server.term s <? AppendResponse.Term response)
      | ResponseStatus_ERROR => false
      end
  end.

(** X13: a round of [sendAppendRequest] that returns puts the next index
    on [appendCh] exactly once, as the last thing it does, whether the
    peer accepted, rejected, answered with an error or could not be
    reached; except that it puts nothing there when no client can be had
    for the member, where it does nothing at all, and when a rejection
    carries a term above the server's. *)
Theorem round_requeues_once
    (interference : Server.RaftServer → Server.RaftServer)
    (a a' : memberAppender) (s s' : Server.RaftServer)
    (request : AppendRequest.t) (call : rpc AppendResponse.t) (startTime : Z)
    (es : list Effects.effect)
    (Hrun : sendAppendRequest interference a s request call startTime
            = Returns (a', s', es)) :
  List.filter is_requeue es
    = (if silent s call then [] else [Send_appendCh (nextIndex a')]) ∧
  (silent s call = false → last es = Some (Send_appendCh (nextIndex a'))) ∧
  (call = NoClient → a' = a ∧ s' = s ∧ es = []).
Proof.
  unfold sendAppendRequest in Hrun. destruct call as [| |response]; cbn [silent].
  - injection Hrun as <- <- <-. done.
  - unfold handleAppendError, fail in Hrun.
    destruct (failureCount a =? 0); injection Hrun as <- <- <-; done.
  - destruct (AppendResponse.Status response).
    + unfold handleAppendResponse in Hrun.
      destruct (AppendResponse.Succeeded response); cbn [negb andb].
      * destruct (if (0 <? length (AppendRequest.Entries request))%nat
                  then _ else _) as [a1|]; [|discriminate Hrun].
        injection Hrun as <- <- <-. done.
      * destruct (Server.term s <? AppendResponse.Term response).
        -- destruct (Server.term (interference s) <? AppendResponse.Term response);
             injection Hrun as <- <- <-; done.
        -- injection Hrun as <- <- <-. done.
    + unfold handleAppendFailure, fail in Hrun.
      destruct (failureCount a =? 0); injection Hrun as <- <- <-; done.
Qed.

Lemma round_requeues_once_witness :
  List.filter is_requeue
    [Send_commitCh "bar" 9 100; Send_appendCh 10]
  = [Send_appendCh 10].
Proof.
  refine (proj1 (round_requeues_once (fun s => s) AppendResponseFacts.peer
    (set_prevTerm (set_nextIndex (set_matchIndex (succeed AppendResponseFacts.peer) 9) 10) 3)
    AppendResponseFacts.leader_server AppendResponseFacts.leader_server
    (AppendRequest.mk 2 "foo" 7 2
       [Log.mkEntry 2 0 Log.Initialize; Log.mkEntry 3 0 Log.Initialize] 5)
    (Replied (AppendResponse.mk ResponseStatus_OK 2 true 9)) 100
    [Send_commitCh "bar" 9 100; Send_appendCh 10] _)).
  vm_compute. reflexivity.
Defined.

(** The effects of an append, however it ends. *)
Definition effects_of
    (o : outcome (memberAppender * Server.RaftServer * list effect))
  : list effect :=
  match o with
  | Returns (_, _, es) | BlocksForever (_, _, es) => es
  | Panics => []
  end.

Lemma no_stream_upstream (es : list Effects.effect) (r : InstallRequest.t) :
  Stream_Send r ∉ Upstream <$> es.
Proof. intros (e & Heq & _)%list_elem_of_fmap. discriminate Heq. Qed.

Section backoff.
Context `{Hsized : Log.Sized}.

(** X8: a peer in back-off costs the leader nothing but heartbeats.  With
    five failures or more, [nextAppendRequest] builds the empty request,
    and an append does nothing and returns when the wait is not over;
    when it is, the one request the append makes is that empty request.
    However the round then goes, the append streams no snapshot and leaves
    the queue, the log reader and the snapshot index as they are. *)
Theorem back_off_sends_only_heartbeats
    (interference : Server.RaftServer → Server.RaftServer) (fuel : nat)
    (m : Snapshot.memory) (store : Snapshot.memorySnapshotStore)
    (a : memberAppender) (s : Server.RaftServer) (waited : bool)
    (currentIndex : Z) (call : rpc AppendResponse.t) (install : install_rpc)
    (startTime : Z)
    (o : outcome (memberAppender * Server.RaftServer * list effect))
    (Hbackoff : minBackoffFailureCount <= failureCount a)
    (Hrun : append interference fuel m store a s waited currentIndex call
              install startTime = Some o) :
  nextAppendRequest fuel a s currentIndex = Some (emptyAppendRequest a s, a) ∧
  AppendRequest.Entries (emptyAppendRequest a s) = [] ∧
  (if waited
   then o = match sendAppendRequest interference a s (emptyAppendRequest a s)
                    call startTime with
            | Returns (a', s', es) => Returns (a', s', Upstream <$> es)
            | Panics => Panics
            | BlocksForever (a', s', es) => BlocksForever (a', s', Upstream <$> es)
            end
   else o = Returns (a, s, [])) ∧
  (∀ r, Stream_Send r ∉ effects_of o) ∧
  match o with
  | Returns (a', _, _) | BlocksForever (a', _, _) =>
      queue a' = queue a ∧ reader a' = reader a ∧
      snapshotIndex a' = snapshotIndex a
  | Panics => True
  end.
Proof.
  assert (Hnext : nextAppendRequest fuel a s currentIndex
                  = Some (emptyAppendRequest a s, a)).
  { unfold nextAppendRequest, minBackoffFailureCount in *.
    by destruct (Z.ltb_spec 0 (failureCount a)); [|lia]. }
  split; [exact Hnext|]. split; [reflexivity|].
  unfold append in Hrun. rewrite Hnext in Hrun.
  destruct (Z.leb_spec minBackoffFailureCount (failureCount a)); [|lia].
  destruct waited.
  2: { injection Hrun as <-. split; [done|]. split; [|done].
       by intros r ?%elem_of_nil. }
  injection Hrun as <-. split; [done|].
  assert (Hkept : match sendAppendRequest interference a s
                          (emptyAppendRequest a s) call startTime with
                  | Returns (a', _, _) | BlocksForever (a', _, _) =>
                      queue a' = queue a ∧ reader a' = reader a ∧
                      snapshotIndex a' = snapshotIndex a
                  | Panics => True
                  end).
  { unfold sendAppendRequest. destruct call as [| |response]; [done| |].
    - unfold handleAppendError, fail. by destruct (failureCount a =? 0).
    - destruct (AppendResponse.Status response).
      + unfold handleAppendResponse.
        cbn [emptyAppendRequest AppendRequest.Entries length].
        destruct (AppendResponse.Succeeded response); [done|].
        destruct (Server.term s <? AppendResponse.Term response).
        * by destruct (Server.term (interference s) <? AppendResponse.Term response).
        * by destruct (AppendResponse.LastLogIndex response <? _).
      + unfold handleAppendFailure, fail. by destruct (failureCount a =? 0). }
  destruct (sendAppendRequest interference a s (emptyAppendRequest a s) call
              startTime) as [[[a' s'] es]| |[[a' s'] es]]; cbn [effects_of].
  - split; [|exact Hkept]. intros r. apply no_stream_upstream.
  - split; [|done]. by intros r ?%elem_of_nil.
  - split; [|exact Hkept]. intros r. apply no_stream_upstream.
Qed.

(** X9: an installed snapshot is not sent again.  A successful install
    resets the failure count and records the snapshot's index as
    installed, reports the match index upstream and requeues; it moves
    neither the match index nor the next index.  While the snapshot stays
    the store's current one, an append that follows streams nothing: it
    sends an append request. *)
Theorem installed_snapshot_is_not_sent_again
    (interference : Server.RaftServer → Server.RaftServer) (fuel : nat)
    (m : Snapshot.memory) (store : Snapshot.memorySnapshotStore)
    (a : memberAppender) (snapshot : Snapshot.memorySnapshot)
    (s : Server.RaftServer) (waited : bool) (currentIndex : Z)
    (call : rpc AppendResponse.t) (install : install_rpc) (startTime t : Z)
    (o : outcome (memberAppender * Server.RaftServer * list effect))
    (Hcurrent : Snapshot.CurrentSnapshot store = Some snapshot)
    (Hrun : append interference fuel m store
              (handleInstallResponse a snapshot startTime).1 s waited
              currentIndex call install t = Some o) :
  let a' := (handleInstallResponse a snapshot startTime).1 in
  snapshotIndex a' = Snapshot.Index snapshot ∧ failureCount a' = 0 ∧
  nextIndex a' = nextIndex a ∧ matchIndex a' = matchIndex a ∧
  (handleInstallResponse a snapshot startTime).2
    = [Send_commitCh (member a) (matchIndex a) startTime;
       Send_appendCh (nextIndex a)] ∧
  ∀ r, Stream_Send r ∉ effects_of o.
Proof.
  unfold handleInstallResponse in *. cbn [fst snd] in *.
  repeat split. intros r.
  unfold append in Hrun. rewrite Hcurrent in Hrun.
  cbn [failureCount snapshotIndex succeed set_failureCount set_snapshotIndex]
    in Hrun.
  change (minBackoffFailureCount <=? 0) with false in Hrun. cbn iota in Hrun.
  rewrite Z.ltb_irrefl in Hrun. cbn [andb] in Hrun.
  destruct (nextAppendRequest fuel _ s currentIndex) as [[request a1]|];
    [|discriminate Hrun].
  injection Hrun as <-.
  destruct (sendAppendRequest _ _ _ _ _ _) as [[[a2 s2] es2]| |[[a2 s2] es2]];
    cbn [effects_of]; try apply no_stream_upstream.
  by intros ?%elem_of_nil.
Qed.

End backoff.

Lemma back_off_sends_only_heartbeats_witness :
  nextAppendRequest (H := BatchFacts.command_bytes) 0
    (set_failureCount BatchFacts.peer_with_gap 6)
    (Server.mkServer 1 "foo" 4 5000) 4
  = Some (emptyAppendRequest (set_failureCount BatchFacts.peer_with_gap 6)
            (Server.mkServer 1 "foo" 4 5000),
          set_failureCount BatchFacts.peer_with_gap 6).
Proof.
  refine (proj1 (back_off_sends_only_heartbeats (Hsized := BatchFacts.command_bytes)
    (fun s => s) 0 Snapshot.empty_memory Snapshot.newMemorySnapshotStore
    (set_failureCount BatchFacts.peer_with_gap 6)
    (Server.mkServer 1 "foo" 4 5000) true 4 Failed Install_NoClient 100 _ _ _)).
  - vm_compute. discriminate.
  - reflexivity.
Defined.

(** A snapshot at index 9 that a peer waiting for entry 8 has just
    installed. *)
Definition installed : Snapshot.memorySnapshot :=
  Snapshot.mkSnapshot 9 0 (Snapshot.mkSlice 0 0 (1024 * 1024)).

Lemma installed_snapshot_is_not_sent_again_witness :
  snapshotIndex (handleInstallResponse AppendResponseFacts.peer installed 100).1
  = 9.
Proof.
  refine (proj1 (installed_snapshot_is_not_sent_again
    (Hsized := BatchFacts.command_bytes) (fun s => s) 0 Snapshot.empty_memory
    (Snapshot.mkStore {[ 9 := installed ]} (Some installed))
    AppendResponseFacts.peer installed AppendResponseFacts.leader_server
    false (Log.LastIndex (reader AppendResponseFacts.peer)) Failed
    Install_NoClient 100 200 _ _ _)).
  - reflexivity.
  - reflexivity.
Defined.

End ReplicationFacts.

(** ** Streaming a snapshot *)

Module InstallFacts.
Import Effects MemberAppender Replication.

Lemma length_contents (m : Snapshot.memory) (s : Snapshot.slice) :
  length (Snapshot.contents m s) = N.to_nat (Snapshot.s_len s).
Proof. unfold Snapshot.contents. by rewrite length_fmap, length_seq. Qed.

Lemma drop_take_length {A} (l : list A) (n : nat) :
  drop (length (take n l)) l = drop n l.
Proof.
  rewrite length_take. destruct (Nat.le_gt_cases n (length l)).
  - by rewrite Nat.min_l.
  - rewrite Nat.min_r by lia. by rewrite !drop_ge by lia.
Qed.

(** The read loop cuts what is left of the reader's slice into chunks of
    at most [n] bytes, none of them empty. *)
Lemma read_chunks_drop (m : Snapshot.memory) (s : Snapshot.slice) (n : N)
    (Hn : (0 < n)%N) (rounds : nat) :
  ∀ i : N,
    (N.to_nat (Snapshot.s_len s) - N.to_nat i < rounds)%nat →
    concat (read_chunks rounds m
              (Snapshot.mkMemoryReader (Snapshot.mkReader s i)) n)
      = drop (N.to_nat i) (Snapshot.contents m s) ∧
    Forall (fun c => (0 < length c ≤ N.to_nat n)%nat)
      (read_chunks rounds m
         (Snapshot.mkMemoryReader (Snapshot.mkReader s i)) n).
Proof.
  induction rounds as [|k IH]; intros i Hrounds; [lia|].
  cbn [read_chunks]. unfold Snapshot.memoryReader_Read, Snapshot.Reader_Read.
  cbn [Snapshot.reader Snapshot.r_s Snapshot.r_i].
  destruct (N.leb_spec (Snapshot.s_len s) i) as [Hend|Hmore].
  - split; [|constructor]. cbn [concat].
    by rewrite drop_ge by (rewrite length_contents; lia).
  - set (rest := drop (N.to_nat i) (Snapshot.contents m s)).
    assert (Hrest : length rest = (N.to_nat (Snapshot.s_len s) - N.to_nat i)%nat)
      by (unfold rest; rewrite length_drop, length_contents; lia).
    assert (Hgot : (0 < length (take (N.to_nat n) rest) ≤ N.to_nat n)%nat)
      by (rewrite length_take; lia).
    assert (Hnext : drop (N.to_nat (i + N.of_nat (length (take (N.to_nat n) rest))))
                      (Snapshot.contents m s)
                    = drop (N.to_nat n) rest).
    { rewrite N2Nat.inj_add, Nat2N.id, <- drop_drop.
      apply drop_take_length. }
    destruct (IH (i + N.of_nat (length (take (N.to_nat n) rest)))%N)
      as [Hconcat Hsizes]; [lia|].
    destruct (take (N.to_nat n) rest) as [|b got] eqn:Htake;
      [cbn [length] in Hgot; lia|].
    split.
    + cbn [concat]. rewrite Hconcat, Hnext, <- Htake. apply take_drop.
    + by constructor.
Qed.

Lemma chunks_of_contents (m : Snapshot.memory) (snapshot : Snapshot.memorySnapshot) :
  concat (chunks_of m snapshot) = Snapshot.contents m (Snapshot.bytes snapshot) ∧
  Forall (fun c => 0 < Z.of_nat (length c) <= maxBatchSize) (chunks_of m snapshot).
Proof.
  unfold chunks_of, Snapshot.Snapshot_Reader, Snapshot.NewReader.
  cbn [Snapshot.reader Snapshot.r_s].
  destruct (read_chunks_drop m (Snapshot.bytes snapshot) (Z.to_N maxBatchSize)
              eq_refl (S (N.to_nat (Snapshot.s_len (Snapshot.bytes snapshot)))) 0%N)
    as [Hconcat Hsizes]; [lia|].
  split; [exact Hconcat|].
  eapply Forall_impl; [exact Hsizes|]. intros c Hc. cbn beta in Hc.
  rewrite Z_N_nat in Hc. unfold maxBatchSize in *. lia.
Qed.

(** The requests among the effects, in the order in which they go out. *)
Definition sent (es : list effect) : list InstallRequest.t :=
  omap (fun e => match e with Stream_Send r => Some r | Upstream _ => None end) es.

Lemma sent_requests (rs : list InstallRequest.t) (es : list Effects.effect) :
  sent ((Stream_Send <$> rs) ++ (Upstream <$> es)) = rs.
Proof.
  unfold sent. rewrite omap_app.
  replace (omap _ (Upstream <$> es)) with (@nil InstallRequest.t)
    by (induction es as [|e es IH]; [done|exact IH]).
  rewrite app_nil_r. induction rs as [|r rs IH]; [done|].
  cbn. by rewrite IH.
Qed.

Lemma Data_newInstallRequest (s : Server.RaftServer)
    (snapshot : Snapshot.memorySnapshot) (chunks : list (list byte)) :
  InstallRequest.Data <$> (newInstallRequest s snapshot <$> chunks) = chunks.
Proof. induction chunks as [|c chunks IH]; [done|]. cbn. by rewrite IH. Qed.

(** X11: once the stream is open, [sendInstallRequests] sends what the
    snapshot's reader holds, in order and cut into requests of at least
    one byte and at most [maxBatchSize] bytes each, all of them with the
    snapshot's index and timestamp and the server's term and leader;
    everything else it does comes after the last request. *)
Theorem snapshot_goes_out_in_chunks (m : Snapshot.memory) (a : memberAppender)
    (s : Server.RaftServer) (snapshot : Snapshot.memorySnapshot)
    (reply : option ResponseStatus) (startTime : Z) :
  let es := (sendInstallRequests m a s snapshot (Install_Closed reply) startTime).2 in
  concat (InstallRequest.Data <$> sent es)
    = Snapshot.contents m (Snapshot.bytes snapshot) ∧
  Forall (fun r =>
            0 < Z.of_nat (length (InstallRequest.Data r)) <= maxBatchSize ∧
            InstallRequest.Index r = Snapshot.Index snapshot ∧
            InstallRequest.Timestamp r = Snapshot.Timestamp snapshot ∧
            InstallRequest.Term r = Server.term s ∧
            InstallRequest.Leader r = Server.leader s) (sent es) ∧
  ∃ rest, es = (Stream_Send <$> sent es) ++ (Upstream <$> rest).
Proof.
  cbn zeta. unfold sendInstallRequests.
  destruct (match reply with
            | Some ResponseStatus_OK => handleInstallResponse a snapshot startTime
            | Some ResponseStatus_ERROR => handleInstallFailure a
            | None => handleInstallError a startTime
            end) as [a' rest].
  cbn [snd].
  replace ((fun bytes => Stream_Send (newInstallRequest s snapshot bytes))
             <$> chunks_of m snapshot)
    with (Stream_Send <$> (newInstallRequest s snapshot <$> chunks_of m snapshot))
    by (by rewrite <- list_fmap_compose).
  rewrite sent_requests.
  destruct (chunks_of_contents m snapshot) as [Hconcat Hsizes].
  split; [|split].
  - by rewrite Data_newInstallRequest.
  - apply Forall_fmap. eapply Forall_impl; [exact Hsizes|].
    intros c Hc. by cbn.
  - by exists rest.
Qed.

Section written.
Context `{Hsized : Log.Sized}.

(** X12: what the leader writes into a snapshot it has just taken never
    reaches a peer.  A peer that has to catch up through the snapshot (its
    next index is not above the snapshot's, and it is not in back-off) is
    sent no request at all, and when it answers OK to the empty stream it
    is recorded as having the snapshot. *)
Theorem written_snapshot_installs_nothing
    (interference : Server.RaftServer → Server.RaftServer) (fuel : nat)
    (m : Snapshot.memory) (st : Snapshot.memorySnapshotStore) (idx ts : Z)
    (chunks : list (list byte)) (a : memberAppender) (s : Server.RaftServer)
    (waited : bool) (currentIndex : Z) (call : rpc AppendResponse.t)
    (startTime : Z)
    (Hfailures : failureCount a < minBackoffFailureCount)
    (Hsnapshot : snapshotIndex a < idx)
    (Hnext : nextIndex a <= idx) :
  let '(m1, st1, snapshot) := Snapshot.newSnapshot m st idx ts in
  let '(m2, _) := Snapshot.write_chunks m1 (Snapshot.Snapshot_Writer snapshot) chunks in
  append interference fuel m2 st1 a s waited currentIndex call
         (Install_Closed (Some ResponseStatus_OK)) startTime
  = Some (Returns (set_snapshotIndex (succeed a) idx, s,
                   [Upstream (Send_commitCh (member a) (matchIndex a) startTime);
                    Upstream (Send_appendCh (nextIndex a))])).
Proof.
  unfold Snapshot.newSnapshot, Snapshot.make.
  destruct (Snapshot.write_chunks _ _ chunks) as [m2 w].
  unfold append. cbn [Snapshot.CurrentSnapshot Snapshot.currentSnapshot
                      Snapshot.Index Snapshot.index].
  destruct (Z.leb_spec minBackoffFailureCount (failureCount a)); [lia|].
  destruct (Z.ltb_spec (snapshotIndex a) idx); [|lia].
  destruct (Z.leb_spec (nextIndex a) idx); [|lia].
  cbn [andb]. reflexivity.
Qed.

End written.

Lemma written_snapshot_installs_nothing_witness :
  let '(m1, st1, snapshot) :=
    Snapshot.newSnapshot Snapshot.empty_memory Snapshot.newMemorySnapshotStore 9 0 in
  let '(m2, _) :=
    Snapshot.write_chunks m1 (Snapshot.Snapshot_Writer snapshot)
      [[x01; x02; x03]; [x04]] in
  append (H := BatchFacts.command_bytes) (fun s => s) 0 m2 st1
         (succeed AppendResponseFacts.peer) AppendResponseFacts.leader_server
         false 7 Failed (Install_Closed (Some ResponseStatus_OK)) 100
  = Some (Returns (set_snapshotIndex (succeed AppendResponseFacts.peer) 9,
                   AppendResponseFacts.leader_server,
                   [Upstream (Send_commitCh "bar" 7 100);
                    Upstream (Send_appendCh 8)])).
Proof.
  apply (written_snapshot_installs_nothing (Hsized := BatchFacts.command_bytes)
           (fun s => s) 0 Snapshot.empty_memory Snapshot.newMemorySnapshotStore
           9 0 [[x01; x02; x03]; [x04]] (succeed AppendResponseFacts.peer)
           AppendResponseFacts.leader_server false 7 Failed 100);
    first [reflexivity | vm_compute; discriminate].
Defined.

End InstallFacts.

(** ** The follower's stop channel *)

Module FollowerStepFacts.
Import Follower FollowerSteps.

(** What returns is what [Follower.resetHeartbeatTimeout] computes. *)
Lemma reset_returns (r r' : FollowerRole) (c c' : stop_chan) (rnd : Z)
    (es : list effect) :
  resetHeartbeatTimeout r c rnd = Reset_returns r' c' es →
  Follower.resetHeartbeatTimeout r rnd = (r', es).
Proof.
  unfold resetHeartbeatTimeout.
  destruct (Follower.resetHeartbeatTimeout r rnd) as [r1 es1].
  destruct (fired r); [|by intros [= <- _ <-]].
  destruct (heartbeatStop r); [|done].
  destruct (send c); [|done..]. by intros [= <- _ <-].
Qed.

Lemma fired_reset (r : FollowerRole) (rnd : Z) :
  fired r = true →
  Follower.resetHeartbeatTimeout r rnd = (r, [Send_heartbeatStop (heartbeatStop r)]).
Proof.
  unfold fired. intros Hfired.
  destruct (heartbeatTimer r) as [t|] eqn:Ht; [|done].
  destruct (timers r !! t) as [tm|] eqn:Htm; [|done].
  eapply FollowerFacts.resetHeartbeatTimeout_expired; [done..|].
  intros Hrun. by rewrite Hrun in Hfired.
Qed.

(** X19: once the goroutine of the follower's timer has left its select
    (the timer fired and the goroutine took that branch, or [Stop] told it
    to go), a reset of the heartbeat timeout never arms a timer again, and
    only one more reset returns.  With the one slot of [heartbeatStop]
    free, [resetHeartbeatTimeout] finds that [Stop()] is false, puts
    [true] into the slot and returns, the follower unchanged; with the
    slot taken, as that reset leaves it, the next reset stays in its send
    for ever, holding the write lock.  The role the inherited handler
    left does not matter, so this is what [Append], [Install], [Configure]
    and a granted [Vote] do as well. *)
Theorem second_reset_after_expiry_blocks (r : FollowerRole) (c : stop_chan)
    (role' : ActiveRole) (rnd : Z)
    (Hfired : fired r = true)
    (Hchannel : is_Some (heartbeatStop r))
    (Hended : awaited c = false) :
  resetHeartbeatTimeout (set_role r role') c rnd
  = (if taken c
     then Reset_blocks [Send_heartbeatStop (heartbeatStop r)]
     else Reset_returns (set_role r role') (mkStop true false)
                        [Send_heartbeatStop (heartbeatStop r)]) ∧
  (∀ role'' rnd',
     resetHeartbeatTimeout (set_role r role'') (mkStop true false) rnd'
     = Reset_blocks [Send_heartbeatStop (heartbeatStop r)]) ∧
  ∀ r' c' es,
    resetHeartbeatTimeout (set_role r role') c rnd = Reset_returns r' c' es →
    timers r' = timers r ∧ heartbeatTimer r' = heartbeatTimer r ∧
    heartbeatStop r' = heartbeatStop r ∧ fired r' = true ∧
    taken c' = true ∧ awaited c' = false.
Proof.
  assert (Hreset : ∀ a c0 rnd0,
            resetHeartbeatTimeout (set_role r a) c0 rnd0
            = match send c0 with
              | Completes c' =>
                  Reset_returns (set_role r a) c'
                    [Send_heartbeatStop (heartbeatStop r)]
              | Waits => Reset_waits [Send_heartbeatStop (heartbeatStop r)]
              | Blocks => Reset_blocks [Send_heartbeatStop (heartbeatStop r)]
              end).
  { intros a c0 rnd0. unfold resetHeartbeatTimeout.
    rewrite (fired_reset (set_role r a) rnd0) by exact Hfired.
    change (fired (set_role r a)) with (fired r). rewrite Hfired.
    change (heartbeatStop (set_role r a)) with (heartbeatStop r).
    destruct Hchannel as [ch ->]. reflexivity. }
  split; [|split].
  - rewrite Hreset. unfold send. rewrite Hended. by destruct (taken c).
  - intros role'' rnd'. by rewrite Hreset.
  - intros r' c' es. rewrite Hreset. unfold send. rewrite Hended.
    destruct (taken c); [done|]. cbn [negb]. intros [= <- <- _]. by repeat split.
Qed.

(** A follower of a three-member cluster whose timer has fired. *)
Definition late_follower : FollowerRole :=
  mkFollower FollowerFacts.three_members (Some 0%nat) (Some 0%nat)
             [mkTimer 6200 Expired] 1.

Lemma second_reset_after_expiry_blocks_witness :
  resetHeartbeatTimeout (set_role late_follower FollowerFacts.three_members)
    (mkStop false false) 1234
  = Reset_returns (set_role late_follower FollowerFacts.three_members)
      (mkStop true false) [Send_heartbeatStop (Some 0%nat)].
Proof.
  refine (proj1 (second_reset_after_expiry_blocks late_follower
                   (mkStop false false) FollowerFacts.three_members 1234 _ _ _)).
  - reflexivity.
  - by eexists.
  - reflexivity.
Defined.

End FollowerStepFacts.

(** ** The metadata store *)

Module MetadataFacts.
Import Metadata.

Definition stored_terms (calls : list call) : list Z :=
  omap (fun c => match c with Call_StoreTerm t => Some t | _ => None end) calls.

Definition stored_votes (calls : list call) : list (option nat) :=
  omap (fun c => match c with Call_StoreVote p => Some p | _ => None end) calls.

Lemma metadata_run_snoc (h : heap) (calls : list call) (c : call) :
  run h (calls ++ [c]) = step (run h calls) c.
Proof. unfold run. by rewrite foldl_app. Qed.

Lemma metadata_run_state (h : heap) (calls : list call) :
  terms (run h calls).1 = terms h ++ stored_terms calls ∧
  votes (run h calls).1 = votes h ∧
  LoadTerm (run h calls).2
    = (match stored_terms calls with
       | [] => None
       | _ => Some (length (terms h ++ stored_terms calls) - 1)%nat
       end) ∧
  LoadVote (run h calls).2 = default None (last (stored_votes calls)).
Proof.
  induction calls as [|c calls IH] using rev_ind.
  - cbn. by rewrite app_nil_r.
  - destruct IH as (Hterms & Hvotes & Hterm & Hvote).
    rewrite metadata_run_snoc. unfold stored_terms, stored_votes in *.
    rewrite !omap_app. destruct c as [t|p]; cbn [step omap].
    + unfold StoreTerm, LoadTerm, LoadVote in *. cbn [fst snd terms votes term vote].
      rewrite Hterms, Hvotes, app_nil_r. cbn [option_bind mbind].
      split; [by rewrite <- app_assoc|]. split; [done|]. split; [|exact Hvote].
      destruct (omap _ calls) as [|t0 ts]; cbn.
      * rewrite app_nil_r, length_app. cbn. f_equal. lia.
      * rewrite !length_app. cbn. rewrite length_app. cbn. f_equal. lia.
    + unfold StoreVote, LoadTerm, LoadVote in *. cbn [fst snd terms votes term vote].
      rewrite app_nil_r. split; [done|]. split; [done|]. split; [done|].
      change (list_omap _ _ _ [Call_StoreVote p]) with [p].
      by rewrite last_snoc.
Qed.

(** X14: the store answers with what was stored last.  After any
    sequence of [StoreTerm] and [StoreVote] calls [LoadTerm] points to a
    variable that holds the term of the last [StoreTerm] (and is nil when
    there was none), [LoadVote] is the pointer of the last [StoreVote]; the
    two do not disturb each other, and the calls change no variable that
    existed before. *)
Theorem store_answers_with_last_stored (h : heap) (calls : list call) :
  term_at (run h calls).1 (LoadTerm (run h calls).2) = last (stored_terms calls) ∧
  LoadVote (run h calls).2 = default None (last (stored_votes calls)) ∧
  votes (run h calls).1 = votes h ∧
  ∀ p, (p < length (terms h))%nat → terms (run h calls).1 !! p = terms h !! p.
Proof.
  destruct (metadata_run_state h calls) as (Hterms & Hvotes & Hterm & Hvote).
  split; [|split; [done|split; [done|]]].
  - unfold term_at. rewrite Hterm, Hterms.
    destruct (stored_terms calls) as [|t ts] eqn:Hstored; [done|].
    cbn [mbind option_bind]. rewrite lookup_app_r by (rewrite length_app; cbn; lia).
    rewrite last_lookup. f_equal. rewrite length_app. cbn. lia.
  - intros p Hp. rewrite Hterms. by rewrite lookup_app_l.
Qed.

(** X15: a vote is kept by reference and a term by value.  What the
    caller assigns through the pointer it handed to [StoreVote] is what
    [LoadVote] then points to; the variable [StoreTerm] keeps is its own,
    so that no assignment through a pointer the caller held before the
    call changes the term the store answers with. *)
Theorem vote_is_shared_term_is_copied (h : heap) (s : memoryMetadataStore)
    (p q : nat) (v : string) (t t' : Z)
    (Hp : (p < length (votes h))%nat) (Hq : (q < length (terms h))%nat) :
  vote_at (assign_vote h p v) (LoadVote (StoreVote s (Some p))) = Some v ∧
  term_at (assign_term (StoreTerm h s t).1 q t') (LoadTerm (StoreTerm h s t).2)
    = Some t.
Proof.
  unfold vote_at, term_at, assign_vote, assign_term, StoreVote, StoreTerm,
    LoadVote, LoadTerm.
  cbn [fst snd vote term votes terms mbind option_bind]. split.
  - by rewrite list_lookup_insert_eq.
  - rewrite list_lookup_insert_ne by lia.
    rewrite lookup_app_r by lia. by rewrite Nat.sub_diag.
Qed.

Lemma vote_is_shared_term_is_copied_witness :
  vote_at (assign_vote (mkHeap [3] ["foo"; "bar"]) 1 "baz")
          (LoadVote (StoreVote newMemoryMetadataStore (Some 1%nat)))
  = Some "baz"%string.
Proof.
  refine (proj1 (vote_is_shared_term_is_copied (mkHeap [3] ["foo"; "bar"])
                   newMemoryMetadataStore 1 0 "baz" 4 5 _ _)); cbn; lia.
Defined.

End MetadataFacts.

(** ** The snapshot store over a run of calls *)

Module StoreFacts.
Import Snapshot.

(** Every snapshot is kept under its own index, is empty as the store made
    it and lies in an array that has been allocated; no two snapshots share
    an array; the current snapshot is one of those the store keeps. *)
Definition consistent (m : memory) (st : memorySnapshotStore) : Prop :=
  (∀ i s, snapshots st !! i = Some s →
          Index s = i ∧ (s_ptr (bytes s) < next_ptr m)%nat ∧
          s_len (bytes s) = 0%N ∧ s_cap (bytes s) = (1024 * 1024)%N) ∧
  (∀ i j si sj, snapshots st !! i = Some si → snapshots st !! j = Some sj →
                s_ptr (bytes si) = s_ptr (bytes sj) → i = j) ∧
  (∀ s, CurrentSnapshot st = Some s → snapshots st !! Index s = Some s).

Lemma consistent_newSnapshot (m : memory) (st : memorySnapshotStore) (idx ts : Z) :
  consistent m st →
  consistent (newSnapshot m st idx ts).1.1 (newSnapshot m st idx ts).1.2.
Proof.
  intros (Hkept & Hapart & Hcurrent).
  unfold newSnapshot, make. cbn [fst snd]. split; [|split].
  - intros i s. cbn [snapshots next_ptr].
    destruct (decide (i = idx)) as [->|Hne].
    + rewrite lookup_insert_eq. intros [= <-]. cbn. repeat split; lia.
    + rewrite lookup_insert_ne by done. intros Hs.
      destruct (Hkept i s Hs) as (? & ? & ? & ?). repeat split; try done. lia.
  - intros i j si sj. cbn [snapshots].
    destruct (decide (i = idx)) as [->|Hi]; destruct (decide (j = idx)) as [->|Hj];
      try done.
    + rewrite lookup_insert_eq, lookup_insert_ne by done.
      intros [= <-] Hsj Hptr. cbn in Hptr.
      destruct (Hkept j sj Hsj) as (_ & Hlt & _). lia.
    + rewrite lookup_insert_eq, lookup_insert_ne by done.
      intros Hsi [= <-] Hptr. cbn in Hptr.
      destruct (Hkept i si Hsi) as (_ & Hlt & _). lia.
    + rewrite !lookup_insert_ne by done. apply Hapart.
  - intros s. cbn [CurrentSnapshot currentSnapshot snapshots].
    intros [= <-]. cbn [Index index]. by rewrite lookup_insert_eq.
Qed.

Lemma kept_indexes (calls : list (Z * Z)) (i : Z) :
  is_Some (snapshots (run calls).2 !! i) ↔ i ∈ calls.*1.
Proof.
  induction calls as [|[idx ts] calls IH] using rev_ind.
  - cbn. rewrite lookup_empty. split; [by intros [? ?]|by intros ?%elem_of_nil].
  - rewrite SnapshotStoreFacts.run_snoc. unfold newSnapshot, make.
    cbn [fst snd snapshots]. rewrite fmap_app, elem_of_app. cbn [fmap list_fmap fst].
    rewrite list_elem_of_singleton.
    destruct (decide (i = idx)) as [->|Hne].
    + rewrite lookup_insert_eq. split; [by right|by eexists].
    + rewrite lookup_insert_ne by done. rewrite IH.
      split; [by left|]. by intros [?|?].
Qed.

Lemma consistent_empty : consistent empty_memory newMemorySnapshotStore.
Proof.
  split; [|split].
  - intros i s Hs. cbn in Hs. by rewrite lookup_empty in Hs.
  - intros i j si sj Hs. cbn in Hs. by rewrite lookup_empty in Hs.
  - intros s Hs. discriminate Hs.
Qed.

(** X16: whatever snapshots are taken, in whatever order of indexes, the
    store stays consistent: it keeps a snapshot for exactly the indexes
    that were asked for, each under its own index, each in a backing array
    of its own, and the current snapshot is among them. *)
Theorem store_stays_consistent (calls : list (Z * Z)) :
  consistent (run calls).1 (run calls).2 ∧
  ∀ i, is_Some (snapshots (run calls).2 !! i) ↔ i ∈ calls.*1.
Proof.
  split; [|apply kept_indexes].
  induction calls as [|[idx ts] calls IH] using rev_ind.
  - exact consistent_empty.
  - rewrite SnapshotStoreFacts.run_snoc. by apply consistent_newSnapshot.
Qed.

End StoreFacts.

(** ** Failures in the appender's loop *)

Module FailureFacts.
Import Effects Appender Commits.

(** A failure that comes more than two election timeouts after the last
    quorum. *)
Definition late (a : raftAppender) (elapsed : Z) : bool :=
  Int64.wrap (Server.electionTimeout (server a) * 2) <? elapsed.

Definition stepped_down (a : raftAppender) : raftAppender :=
  set_server a (Server.setLeader (server a) Server.no_leader).

Definition step_down : list effect :=
  [Upstream (Call_setLeader Server.no_leader); Call_becomeFollower].

Lemma late_stepped_down (a : raftAppender) (elapsed : Z) :
  late (stepped_down a) elapsed = late a elapsed.
Proof. reflexivity. Qed.

Lemma stepped_down_twice (a : raftAppender) :
  stepped_down (stepped_down a) = stepped_down a.
Proof. reflexivity. Qed.

Lemma failures_run (fuel : nat) (failures : list (Z * Z)) :
  ∀ a,
    processCommits fuel a ((fun f => failCh f.1 f.2) <$> failures)
    = Some (if existsb (late a) failures.*2 then stepped_down a else a,
            failures.*2 ≫= (fun e => if late a e then step_down else []),
            Selecting, []).
Proof.
  induction failures as [|[t e] failures IH]; intros a; [done|].
  cbn [fmap list_fmap fst snd processCommits existsb]. unfold failTime.
  fold (late a e). destruct (late a e) eqn:Hlate.
  - fold (stepped_down a). rewrite IH. cbn [orb].
    change (((t, e) :: failures).*2) with (e :: failures.*2).
    change ((e :: failures.*2) ≫= ?f) with (f e ++ (failures.*2 ≫= f)).
    cbn beta. rewrite Hlate. do 3 f_equal.
    by destruct (existsb _ _).
  - rewrite IH. cbn [orb].
    change (((t, e) :: failures).*2) with (e :: failures.*2).
    change ((e :: failures.*2) ≫= ?f) with (f e ++ (failures.*2 ≫= f)).
    cbn beta. by rewrite Hlate.
Qed.

(** X20: failures never stop the appender's loop and never touch what it
    has recorded.  With the server's [becomeFollower] taken as a call that
    returns, after any run of failure events the loop is back in its
    select with every event taken; the appender is as it was, but for the
    server's leader, which is cleared when some failure came more than two
    election timeouts after the last quorum; and the leader steps down
    again for every such failure, not once. *)
Theorem failures_step_down_every_time (fuel : nat) (a : raftAppender)
    (failures : list (Z * Z)) :
  processCommits fuel a ((fun f => failCh f.1 f.2) <$> failures)
  = Some (if existsb (late a) failures.*2 then stepped_down a else a,
          failures.*2 ≫= (fun e => if late a e then step_down else []),
          Selecting, []) ∧
  length (List.filter (fun e => match e with Call_becomeFollower => true | _ => false end)
            (failures.*2 ≫= (fun e => if late a e then step_down else [])))
  = length (List.filter (late a) failures.*2).
Proof.
  split; [apply failures_run|].
  induction failures as [|[t e] failures IH]; [done|].
  change (((t, e) :: failures).*2) with (e :: failures.*2).
  change ((e :: failures.*2) ≫= ?f) with (f e ++ (failures.*2 ≫= f)).
  cbn beta. rewrite List.filter_app, length_app, IH. cbn [List.filter].
  by destruct (late a e).
Qed.

End FailureFacts.

(** ** Stopping the appender *)

Module StopFacts.
Import Effects Appender Commits.

(** The mutex as a call leaves it. *)
Definition keeps_mu (a : raftAppender) (o : outcome (raftAppender * list Effects.effect))
  : Prop :=
  match o with
  | Returns (a', _) | BlocksForever (a', _) => mu a' = mu a
  | Panics => True
  end.

Lemma commitIndex_keeps_mu (fuel : nat) (a : raftAppender) (member : string)
    (index : Z) (o : outcome (raftAppender * list Effects.effect)) :
  commitIndex fuel a member index = Some o → keeps_mu a o.
Proof.
  unfold commitIndex.
  destruct (default 0 (commitIndexes a !! member) <? index);
    [|by intros [= <-]].
  destruct (sorted_values _ _) as [indexes|]; [|by intros [= <-]].
  destruct (indexes !! _) as [c|]; [|by intros [= <-]].
  destruct (commitLoop _ _ _ _ _) as [[s es]|]; [|done].
  by intros [= <-].
Qed.

Lemma commitTime_keeps_mu (a : raftAppender) (member : string) (t : Z) :
  keeps_mu a (commitTime a member t).
Proof.
  unfold commitTime.
  destruct (default zero_time (commitTimes a !! member) <? t); [|done].
  destruct (sorted_values _ _) as [times|]; [|done].
  destruct (times !! _) as [c|]; [|done].
  cbn [mu]. destruct (mu a) eqn:Hmu; [by cbn|].
  destruct (resolveFutures _ _) as [[fs es]| |[fs es]]; by cbn.
Qed.

Lemma commit_keeps_mu (fuel : nat) (a : raftAppender)
    (member : MemberAppender.memberAppender) (index t : Z)
    (o : outcome (raftAppender * list Effects.effect)) :
  commit fuel a member index t = Some o → keeps_mu a o.
Proof.
  unfold commit. destruct (negb (MemberAppender.active member));
    [by intros [= <-]|].
  destruct (commitIndex fuel a (MemberAppender.member member) index)
    as [o1|] eqn:Hindex; [|done].
  pose proof (commitIndex_keeps_mu _ _ _ _ _ Hindex) as Hmu1.
  destruct o1 as [[a1 es1]| |[a1 es1]]; try (by intros [= <-]).
  intros [= <-]. pose proof (commitTime_keeps_mu a1 (MemberAppender.member member) t) as Hmu2.
  cbn [keeps_mu] in Hmu1.
  destruct (commitTime a1 _ t) as [[a2 es2]| |[a2 es2]]; cbn [keeps_mu] in *;
    congruence.
Qed.

Lemma processCommits_keeps_mu (fuel : nat) (events : list event) :
  ∀ a a' es l unseen,
    processCommits fuel a events = Some (a', es, l, unseen) →
    mu a' = mu a ∧ (stopped ∉ events → l ≠ Returned).
Proof.
  induction events as [|ev events IH]; intros a a' es l unseen Hrun.
  - injection Hrun as <- <- <- <-. by split.
  - destruct ev as [member index t|t elapsed|]; cbn [processCommits] in Hrun.
    + destruct (commit fuel a member index t) as [o|] eqn:Hcommit; [|done].
      pose proof (commit_keeps_mu _ _ _ _ _ _ Hcommit) as Hmu.
      destruct o as [[a1 es1]| |[a1 es1]]; cbn [keeps_mu] in Hmu.
      * destruct (processCommits fuel a1 events) as [[[[a2 es2] l2] unseen2]|]
          eqn:Hrest; [|done].
        injection Hrun as <- <- <- <-.
        destruct (IH _ _ _ _ _ Hrest) as [Hmu2 Hloop].
        split; [congruence|]. intros Hnot. apply Hloop.
        intros Hin. apply Hnot. by right.
      * injection Hrun as <- <- <- <-. by split.
      * injection Hrun as <- <- <- <-. by split.
    + unfold failTime in Hrun.
      destruct (Int64.wrap _ <? elapsed).
      * destruct (processCommits fuel _ events) as [[[[a2 es2] l2] unseen2]|]
          eqn:Hrest; [|done].
        injection Hrun as <- <- <- <-.
        destruct (IH _ _ _ _ _ Hrest) as [Hmu2 Hloop].
        split; [exact Hmu2|]. intros Hnot. apply Hloop.
        intros Hin. apply Hnot. by right.
      * destruct (processCommits fuel a events) as [[[[a2 es2] l2] unseen2]|]
          eqn:Hrest; [|done].
        injection Hrun as <- <- <- <-.
        destruct (IH _ _ _ _ _ Hrest) as [Hmu2 Hloop].
        split; [exact Hmu2|]. intros Hnot. apply Hloop.
        intros Hin. apply Hnot. by right.
    + injection Hrun as <- <- <- <-. split; [done|].
      intros Hnot. destruct Hnot. by left.
Qed.

(** X21: a started appender cannot be stopped.  [start] holds the
    appender's mutex while [processCommits] runs, and no commit or failure
    event releases it; [stop] begins by taking that mutex, so it stops no
    member appender and never tells [processCommits], which, for want of
    that word, does not return. *)
Theorem started_appender_cannot_be_stopped (fuel : nat) (a a' : raftAppender)
    (events unseen : list event) (es : list effect) (l : loop)
    (Hevents : stopped ∉ events)
    (Hrun : processCommits fuel (start a) events = Some (a', es, l, unseen)) :
  mu a' = true ∧ (∀ first, stop a' first = (a', [], Stop_locking)) ∧
  l ≠ Returned.
Proof.
  destruct (processCommits_keeps_mu fuel events _ _ _ _ _ Hrun) as [Hmu Hloop].
  cbn [start mu] in Hmu. split; [exact Hmu|]. split; [|by apply Hloop].
  intros first. unfold stop. by rewrite Hmu.
Qed.

Lemma started_appender_cannot_be_stopped_witness :
  stop (start CommitIndexFacts.three_member_leader) "bar"
  = (start CommitIndexFacts.three_member_leader, [], Stop_locking).
Proof.
  refine (proj1 (proj2 (started_appender_cannot_be_stopped 0
    CommitIndexFacts.three_member_leader (start CommitIndexFacts.three_member_leader)
    [failCh 100 3] [] [] Selecting _ _)) "bar").
  - intros Hin. apply list_elem_of_singleton in Hin. discriminate Hin.
  - reflexivity.
Defined.

End StopFacts.
